(** * Pitch-transposition augmentation: a shallow embedding of
      [augmentation.py] (class [TransposeAugmenter]) and its properties.

    Conventions of the embedding.
    - Python integers are unbounded: [Z].  Floor division [//] by 2 is
      [Z.div] (which rounds towards minus infinity for a positive divisor).
    - Strings are [string] (ASCII text).  [str.startswith], [str.split],
      [int(...)] on a string and the f-string ["Pitch_{n}"] are written
      out below.
    - The vocabulary is the dict that [json.load] returns: an association
      list in iteration (insertion) order, since [__init__] walks it with
      [.items()] and later entries overwrite the table slot of an id they
      share with an earlier one.  Token ids are integers.
    - [self.token_to_info] is a dict keyed by id that is only ever written
      by key and read by key: a [gmap Z TokenInfo].
    - An exception ([ValueError] from [int], [IndexError]) and the
      [None] that [transpose_tokens] returns are both [None] of an
      [option]; which of the two is meant is said at each definition.
    - [print] diagnostics are not part of the embedding.
    - Module [Obj] models list objects in a store, so that "a new list"
      and "the input list is not written to" can be stated; it is shown
      to refine the pure functions.
    - Module [Jsonl] models [process_jsonl_file] over the lines of the
      input file after [json.loads] and the records of the output files
      before [json.dumps]; the output files are kept by offset, their
      names being pairwise different.  [main] (command line, checks on the
      file system, exit codes) and [load_data.py] (one call into a dataset
      library) have no embedding. *)

From Stdlib Require Import ZArith Ascii String DecimalString DecimalZ Sorted.
From stdpp Require Import base option list list_numbers sorting gmap strings.

Local Open Scope Z_scope.

(** ** Python string primitives *)

Module Py.

(** [s.split(sep)] for a one-character separator: every occurrence of
    [sep] cuts, empty pieces are kept, and the result is never empty. *)
Fixpoint split (sep : ascii) (s : string) : list string :=
  match s with
  | EmptyString => [EmptyString]
  | String c rest =>
      if Ascii.eqb c sep then EmptyString :: split sep rest
      else match split sep rest with
           | [] => [String c EmptyString]
           | seg :: segs => String c seg :: segs
           end
  end.

(** [s.startswith(p)] *)
Definition startswith (s p : string) : bool := String.prefix p s.

(** ASCII white space as [int] strips it: TAB..CR, FS..US and space. *)
Definition isspace (c : ascii) : bool :=
  let n := N_of_ascii c in
  ((9 <=? n)%N && (n <=? 13)%N) || ((28 <=? n)%N && (n <=? 32)%N).

Definition isdigit (c : ascii) : bool :=
  let n := N_of_ascii c in (48 <=? n)%N && (n <=? 57)%N.

Definition digit_value (c : ascii) : Z := Z.of_N (N_of_ascii c) - 48.

Fixpoint lstrip (s : list ascii) : list ascii :=
  match s with
  | c :: rest => if isspace c then lstrip rest else s
  | [] => []
  end.

Definition strip (s : list ascii) : list ascii :=
  rev (lstrip (rev (lstrip s))).

(** The digits of a decimal literal: at least one digit, single
    underscores allowed between digits only. *)
Fixpoint digits (s : list ascii) (acc : Z) (after_digit : bool) : option Z :=
  match s with
  | [] => if after_digit then Some acc else None
  | c :: rest =>
      if isdigit c then digits rest (10 * acc + digit_value c) true
      else if Ascii.eqb c "_" then
        if after_digit then digits rest acc false else None
      else None
  end.

(** [int(s)] in base ten; [None] is [ValueError].  (The interpreter's
    limit on the number of digits of such a literal is not modelled.) *)
Definition int (s : string) : option Z :=
  match strip (list_ascii_of_string s) with
  | c :: rest =>
      if Ascii.eqb c "-" then Z.opp <$> digits rest 0 false
      else if Ascii.eqb c "+" then digits rest 0 false
      else digits (c :: rest) 0 false
  | [] => None
  end.

(** [str(n)] for an integer: decimal digits, ["-"] in front of a negative
    number, ["0"] for zero. *)
Definition str (n : Z) : string := NilZero.string_of_int (Z.to_int n).

(** [list(range(start, stop))] *)
Definition range (start stop : Z) : list Z := seqZ start (stop - start).

(** [f"{n:+d}"]: the decimal digits with the sign always written. *)
Definition format_plus_d (n : Z) : string :=
  if n <? 0 then str n else String "+" (str n).

(** [min(l)] and [max(l)] of a list with first element [x]. *)
Definition min (x : Z) (l : list Z) : Z := foldl Z.min x l.
Definition max (x : Z) (l : list Z) : Z := foldl Z.max x l.

End Py.

(** ** Data model *)

(** The value of [self.token_to_info[idx]]: the pair [(name, value)] with
    [name] one of ['pitch'], ['drum_pitch'], ['chord'], ['other']. *)
Inductive TokenInfo : Type :=
  | pitch (value : Z)
  | drum_pitch (value : Z)
  | chord (chord_type : string)
  | other.

(** A dict from token string to id, in iteration order. *)
Definition Dict : Type := list (string * Z).

(** [d.get(k)]: [Some] exactly when [k in d], and then [d[k]]. *)
Fixpoint dict_get (d : Dict) (k : string) : option Z :=
  match d with
  | [] => None
  | (k', v) :: rest => if decide (k' = k) then Some v else dict_get rest k
  end.

(** The keys of a dict are pairwise different. *)
Definition dict_wf (d : Dict) : Prop := NoDup d.*1.

Record TransposeAugmenter : Type := MkTransposeAugmenter {
  transpose_range : Z * Z;
  transpose_values : list Z;
  num_augmentations : nat;
  vocab : Dict;
  token_to_info : gmap Z TokenInfo;
  min_pitch : Z;
  max_pitch : Z;
  mid_pitch : Z
}.

(** ** [__init__] *)

(** The body of the loop over [self.vocab.items()] for one token string;
    [None] is the exception raised by [int] (or by [[1]]). *)
Definition classify (token : string) : option TokenInfo :=
  if Py.startswith token "Pitch_" && negb (Py.startswith token "PitchDrum_")
  then
    seg ← Py.split "_" token !! 1%nat;
    pitch_value ← Py.int seg;
    Some (pitch pitch_value)
  else if Py.startswith token "PitchDrum_" then
    seg ← Py.split "_" token !! 1%nat;
    pitch_value ← Py.int seg;
    Some (drum_pitch pitch_value)
  else if Py.startswith token "Chord_" then
    chord_type ← Py.split "_" token !! 1%nat;
    Some (chord chord_type)
  else Some other.

Fixpoint build_token_to_info (items : Dict) (tbl : gmap Z TokenInfo)
  : option (gmap Z TokenInfo) :=
  match items with
  | [] => Some tbl
  | (token, idx) :: rest =>
      info ← classify token;
      build_token_to_info rest (<[idx := info]> tbl)
  end.

(** [vocab_json] is what [json.load] read from [vocab_file]. *)
Definition __init__ (vocab_json : Dict) (transpose_range : Z * Z)
  : option TransposeAugmenter :=
  let transpose_values :=
    Py.range (fst transpose_range) (snd transpose_range + 1) in
  let num_augmentations := length transpose_values in
  tbl ← build_token_to_info vocab_json ∅;
  let min_pitch := 21 in
  let max_pitch := 109 in
  Some {| transpose_range := transpose_range;
          transpose_values := transpose_values;
          num_augmentations := num_augmentations;
          vocab := vocab_json;
          token_to_info := tbl;
          min_pitch := min_pitch;
          max_pitch := max_pitch;
          mid_pitch := (min_pitch + max_pitch) / 2 |}.

(** ** [find_optimal_transpose] *)

Fixpoint collect_pitches (self : TransposeAugmenter) (tokens : list Z)
    (pitches : list Z) : list Z :=
  match tokens with
  | [] => pitches
  | token :: rest =>
      match token_to_info self !! token with
      | Some (pitch value) => collect_pitches self rest (pitches ++ [value])
      | _ => collect_pitches self rest pitches
      end
  end.

Definition find_optimal_transpose (self : TransposeAugmenter)
    (tokens : list Z) : Z :=
  match collect_pitches self tokens [] with
  | [] => 0
  | p :: ps =>
      let current_min := Py.min p ps in
      let current_max := Py.max p ps in
      let current_center := (current_min + current_max) / 2 in
      let optimal_transpose := mid_pitch self - current_center in
      if current_min + optimal_transpose <? min_pitch self then
        min_pitch self - current_min
      else if current_max + optimal_transpose >? max_pitch self then
        max_pitch self - current_max
      else optimal_transpose
  end.

(** ** [transpose_tokens] *)

(** The [for token in tokens] loop with its accumulator [result]; [None]
    is [return None]. *)
Fixpoint transpose_loop (self : TransposeAugmenter) (transpose_steps : Z)
    (tokens : list Z) (result : list Z) : option (list Z) :=
  match tokens with
  | [] => Some result
  | token :: rest =>
      match token_to_info self !! token with
      | Some (pitch value) =>
          let new_pitch := value + transpose_steps in
          if (new_pitch <? min_pitch self) || (new_pitch >? max_pitch self)
          then None
          else
            let new_token_name := "Pitch_" +:+ Py.str new_pitch in
            match dict_get (vocab self) new_token_name with
            | Some id => transpose_loop self transpose_steps rest (result ++ [id])
            | None => None
            end
      | Some (drum_pitch _) =>
          transpose_loop self transpose_steps rest (result ++ [token])
      | Some (chord _) =>
          transpose_loop self transpose_steps rest (result ++ [token])
      | Some other =>
          transpose_loop self transpose_steps rest (result ++ [token])
      | None =>
          transpose_loop self transpose_steps rest (result ++ [token])
      end
  end.

Definition transpose_tokens (self : TransposeAugmenter) (tokens : list Z)
    (transpose_steps : Z) : option (list Z) :=
  if transpose_steps =? 0 then Some tokens
  else transpose_loop self transpose_steps tokens [].

(** One turn of that loop seen from outside: the id the turn appends for
    [token], or [None] when the turn returns [None]. *)
Definition transpose_token (self : TransposeAugmenter) (transpose_steps : Z)
    (token : Z) : option Z :=
  transpose_loop self transpose_steps [token] [] ≫= head.

(** ** [augment_sequence] *)

Fixpoint augment_loop (self : TransposeAugmenter) (tokens : list Z)
    (optimal_transpose : Z) (values : list Z) (results : list (Z * list Z))
  : list (Z * list Z) :=
  match values with
  | [] => results
  | transpose_steps :: rest =>
      let actual_transpose := optimal_transpose + transpose_steps in
      match transpose_tokens self tokens actual_transpose with
      | Some transposed_tokens =>
          augment_loop self tokens optimal_transpose rest
            (results ++ [(actual_transpose, transposed_tokens)])
      | None => augment_loop self tokens optimal_transpose rest results
      end
  end.

Definition augment_sequence (self : TransposeAugmenter) (tokens : list Z)
  : list (Z * list Z) :=
  let optimal_transpose := find_optimal_transpose self tokens in
  augment_loop self tokens optimal_transpose (transpose_values self) [].

(** ** List objects

    [transpose_tokens] receives a reference to a list object and returns a
    reference (or [None]).  Here the lists live in a store; [result = []]
    and [tokens.copy()] allocate, [result.append(x)] writes in place, and
    the [for] loop reads [tokens] through the store at every turn. *)

Module Obj.

(** References to list objects; a store is a [gmap loc (list Z)]. *)
Definition loc : Type := positive.

(** A new list object holding [v]. *)
Definition alloc (σ : gmap loc (list Z)) (v : list Z)
  : loc * gmap loc (list Z) :=
  let l := fresh (dom σ) in (l, <[l := v]> σ).

(** [l.append(x)] *)
Definition append (σ : gmap loc (list Z)) (l : loc) (x : Z)
  : gmap loc (list Z) :=
  match σ !! l with
  | Some v => <[l := v ++ [x]]> σ
  | None => σ
  end.

(** The [for token in tokens] loop: [i] is the position of the list
    iterator, [fuel] bounds the number of turns.  The outer [None] stands
    for a dangling reference or for running out of fuel; the inner option
    is the value returned. *)
Fixpoint transpose_for (self : TransposeAugmenter) (transpose_steps : Z)
    (tokens result : loc) (fuel i : nat) (σ : gmap loc (list Z))
  : option (gmap loc (list Z) * option loc) :=
  match fuel with
  | O => None
  | S fuel =>
      toks ← σ !! tokens;
      match toks !! i with
      | None => Some (σ, Some result)
      | Some token =>
          match token_to_info self !! token with
          | Some (pitch value) =>
              let new_pitch := value + transpose_steps in
              if (new_pitch <? min_pitch self) || (new_pitch >? max_pitch self)
              then Some (σ, None)
              else
                let new_token_name := "Pitch_" +:+ Py.str new_pitch in
                match dict_get (vocab self) new_token_name with
                | Some id =>
                    transpose_for self transpose_steps tokens result fuel
                      (S i) (append σ result id)
                | None => Some (σ, None)
                end
          | Some (drum_pitch _) =>
              transpose_for self transpose_steps tokens result fuel
                (S i) (append σ result token)
          | Some (chord _) =>
              transpose_for self transpose_steps tokens result fuel
                (S i) (append σ result token)
          | Some other =>
              transpose_for self transpose_steps tokens result fuel
                (S i) (append σ result token)
          | None =>
              transpose_for self transpose_steps tokens result fuel
                (S i) (append σ result token)
          end
      end
  end.

Definition transpose_tokens (self : TransposeAugmenter)
    (σ : gmap loc (list Z)) (tokens : loc) (transpose_steps : Z)
  : option (gmap loc (list Z) * option loc) :=
  toks ← σ !! tokens;
  if transpose_steps =? 0 then
    let '(copy, σ') := alloc σ toks in Some (σ', Some copy)
  else
    let '(result, σ') := alloc σ [] in
    transpose_for self transpose_steps tokens result (S (length toks)) 0%nat σ'.

End Obj.

(** ** [process_jsonl_file]

    The input file is the list of its lines, each line being what
    [json.loads(line.strip())] and the two key probes make of it; an output
    file is the list of the records written to it, in order, before
    [json.dumps].  A record is a dict seen through the keys the function
    reads or writes: ['tokens'] and ['ids'] hold a list of token ids or a
    scalar (null, a number, a boolean: not iterable), ['augment'] and the
    remaining keys hold text the function never looks at. *)

Module Jsonl.

Inductive Field : Type :=
  | FInts (l : list Z)
  | FScalar.

Record Data : Type := MkData {
  tokens_key : option Field;
  ids_key : option Field;
  augment_key : option string;
  other_keys : gmap string string
}.

(** The dict stored under ['augment']. *)
Record Augment : Type := MkAugment {
  transpose : Z;
  base_transpose : Z;
  optimal_transpose : Z
}.

(** [new_data]: the copy of [data] with ['tokens'] and ['augment'] set. *)
Record OutData : Type := MkOutData {
  out_tokens : list Z;
  out_ids : option Field;
  out_augment : Augment;
  out_other : gmap string string
}.

Inductive Line : Type :=
  | LMalformed              (* [json.loads] raises [JSONDecodeError] *)
  | LValue                  (* a JSON value that is no object *)
  | LObject (data : Data).

(** The local state of the function: the open output files by offset and
    the two counters. *)
Record Run : Type := MkRun {
  output_files : gmap Z (list OutData);
  total_processed : Z;
  total_augmented : Z
}.

Inductive Exit : Type :=
  | Returns
  | ZeroDivisionError.

(** [f"transpose_{transpose_steps:+d}.jsonl"] *)
Definition filename (transpose_steps : Z) : string :=
  "transpose_" +:+ Py.format_plus_d transpose_steps +:+ ".jsonl".

(** The loop that opens one file per configured offset (mode ['w']). *)
Fixpoint open_output_files (values : list Z)
    (output_files : gmap Z (list OutData)) : gmap Z (list OutData) :=
  match values with
  | [] => output_files
  | transpose_steps :: rest =>
      open_output_files rest (<[transpose_steps := []]> output_files)
  end.

(** The loop over [augmented_results] for one record. *)
Fixpoint write_results (self : TransposeAugmenter) (data : Data)
    (tokens : list Z) (augmented_results : list (Z * list Z))
    (output_files : gmap Z (list OutData)) (total_augmented : Z)
  : gmap Z (list OutData) * Z :=
  match augmented_results with
  | [] => (output_files, total_augmented)
  | (actual_transpose, transposed_tokens) :: rest =>
      let base_transpose :=
        actual_transpose - find_optimal_transpose self tokens in
      match output_files !! base_transpose with
      | Some written =>
          let new_data :=
            {| out_tokens := transposed_tokens;
               out_ids := ids_key data;
               out_augment :=
                 {| transpose := actual_transpose;
                    base_transpose := base_transpose;
                    optimal_transpose := find_optimal_transpose self tokens |};
               out_other := other_keys data |} in
          write_results self data tokens rest
            (<[base_transpose := written ++ [new_data]]> output_files)
            (total_augmented + 1)
      | None =>
          write_results self data tokens rest output_files total_augmented
      end
  end.

(** The body of the [try] for one line; a line that is skipped (by
    [continue] or by one of the two [except] clauses) leaves the state as
    it is. *)
Definition process_line (self : TransposeAugmenter) (line : Line)
    (run : Run) : Run :=
  match line with
  | LMalformed => run
  | LValue => run
  | LObject data =>
      let tokens :=
        match tokens_key data with
        | Some field => Some field
        | None => ids_key data
        end in
      match tokens with
      | None => run
      | Some FScalar => run
      | Some (FInts tokens) =>
          let augmented_results := augment_sequence self tokens in
          let '(files, augmented) :=
            write_results self data tokens augmented_results
              (output_files run) (total_augmented run) in
          {| output_files := files;
             total_processed := total_processed run + 1;
             total_augmented := augmented |}
      end
  end.

(** [if max_samples and total_processed >= max_samples: break] *)
Definition reached (max_samples : option Z) (total_processed : Z) : bool :=
  match max_samples with
  | Some n => negb (n =? 0) && (total_processed >=? n)
  | None => false
  end.

Fixpoint process_lines (self : TransposeAugmenter) (max_samples : option Z)
    (lines : list Line) (run : Run) : Run :=
  match lines with
  | [] => run
  | line :: rest =>
      if reached max_samples (total_processed run) then run
      else process_lines self max_samples rest (process_line self line run)
  end.

(** The function up to the division in the summary it prints: the state
    it leaves and how it ends. *)
Definition process_jsonl_file (self : TransposeAugmenter)
    (lines : list Line) (max_samples : option Z) : Run * Exit :=
  let output_files := open_output_files (transpose_values self) ∅ in
  let run :=
    process_lines self max_samples lines
      {| output_files := output_files;
         total_processed := 0;
         total_augmented := 0 |} in
  (run, if total_processed run =? 0 then ZeroDivisionError else Returns).

(** The token list a line is processed with, if it is processed at all. *)
Definition usable (line : Line) : option (Data * list Z) :=
  match line with
  | LObject data =>
      match tokens_key data, ids_key data with
      | Some (FInts tokens), _ => Some (data, tokens)
      | None, Some (FInts tokens) => Some (data, tokens)
      | _, _ => None
      end
  | _ => None
  end.

(** The records a limit of [max_samples] lets through. *)
Definition limited {A} (max_samples : option Z) (l : list A) : list A :=
  match max_samples with
  | Some n => if n =? 0 then l else take (Z.to_nat n) l
  | None => l
  end.

(** What one processed record contributes to the file of offset [d]. *)
Definition written_for (self : TransposeAugmenter) (d : Z)
    (record : Data * list Z) : list OutData :=
  let optimal := find_optimal_transpose self record.2 in
  match transpose_tokens self record.2 (optimal + d) with
  | Some transposed =>
      [{| out_tokens := transposed;
          out_ids := ids_key record.1;
          out_augment :=
            {| transpose := optimal + d;
               base_transpose := d;
               optimal_transpose := optimal |};
          out_other := other_keys record.1 |}]
  | None => []
  end.

(** The state after a record taken with the token list [tokens] has been
    processed. *)
Definition process_record (self : TransposeAugmenter) (run : Run)
    (record : Data * list Z) : Run :=
  let written :=
    write_results self record.1 record.2 (augment_sequence self record.2)
      (output_files run) (total_augmented run) in
  {| output_files := written.1;
     total_processed := total_processed run + 1;
     total_augmented := written.2 |}.

(** The records a limit of [max_samples] still lets through once
    [processed] records have been processed. *)
Definition allowed {A} (max_samples : option Z) (processed : Z)
    (l : list A) : list A :=
  match max_samples with
  | Some n => if n =? 0 then l else take (Z.to_nat (n - processed)) l
  | None => l
  end.

End Jsonl.

(** ** Running examples *)

Definition spec_vocab : Dict :=
  [("Pitch_60", 0); ("Pitch_61", 1); ("Pitch_59", 2); ("Chord_maj", 3);
   ("Bar_None", 4)].

(** A vocabulary whose only pitch lies below the range. *)
Definition low_vocab : Dict := [("Pitch_5", 0)].

(** The augmenter [__init__] builds from [spec_vocab] and the range
    [(-1, 1)], and the one it builds from [low_vocab] and the default
    range. *)
Definition spec_self : TransposeAugmenter :=
  {| transpose_range := (-1, 1);
     transpose_values := [-1; 0; 1];
     num_augmentations := 3;
     vocab := spec_vocab;
     token_to_info :=
       <[4 := other]> (<[3 := chord "maj"]> (<[2 := pitch 59]>
         (<[1 := pitch 61]> (<[0 := pitch 60]> ∅))));
     min_pitch := 21; max_pitch := 109; mid_pitch := 65 |}.

Definition low_self : TransposeAugmenter :=
  {| transpose_range := (-5, 6);
     transpose_values := [-5; -4; -3; -2; -1; 0; 1; 2; 3; 4; 5; 6];
     num_augmentations := 12;
     vocab := low_vocab;
     token_to_info := <[0 := pitch 5]> ∅;
     min_pitch := 21; max_pitch := 109; mid_pitch := 65 |}.

(** A vocabulary with both ends of the pitch range, a drum and a chord. *)
Definition edge_vocab : Dict :=
  [("Pitch_21", 0); ("Pitch_109", 1); ("Pitch_22", 2); ("PitchDrum_36", 3);
   ("Chord_maj", 4)].

Definition edge_self : TransposeAugmenter :=
  {| transpose_range := (-5, 6);
     transpose_values := [-5; -4; -3; -2; -1; 0; 1; 2; 3; 4; 5; 6];
     num_augmentations := 12;
     vocab := edge_vocab;
     token_to_info :=
       <[4 := chord "maj"]> (<[3 := drum_pitch 36]> (<[2 := pitch 22]>
         (<[1 := pitch 109]> (<[0 := pitch 21]> ∅))));
     min_pitch := 21; max_pitch := 109; mid_pitch := 65 |}.

(** A vocabulary whose pitches are further apart than the range is wide. *)
Definition wide_vocab : Dict :=
  [("Pitch_10", 0); ("Pitch_120", 1); ("Pitch_21", 2)].

Definition wide_self : TransposeAugmenter :=
  {| transpose_range := (-5, 6);
     transpose_values := [-5; -4; -3; -2; -1; 0; 1; 2; 3; 4; 5; 6];
     num_augmentations := 12;
     vocab := wide_vocab;
     token_to_info :=
       <[2 := pitch 21]> (<[1 := pitch 120]> (<[0 := pitch 10]> ∅));
     min_pitch := 21; max_pitch := 109; mid_pitch := 65 |}.

(** A vocabulary around the middle of the range, with the offsets -1..2. *)
Definition mid_vocab : Dict :=
  [("Pitch_65", 0); ("Pitch_66", 1); ("Pitch_64", 2); ("Bar_None", 3)].

Definition mid_self : TransposeAugmenter :=
  {| transpose_range := (-1, 2);
     transpose_values := [-1; 0; 1; 2];
     num_augmentations := 4;
     vocab := mid_vocab;
     token_to_info :=
       <[3 := other]> (<[2 := pitch 64]> (<[1 := pitch 66]>
         (<[0 := pitch 65]> ∅)));
     min_pitch := 21; max_pitch := 109; mid_pitch := 65 |}.

(** A vocabulary with unique ids in which two strings name pitch 60. *)
Definition padded_vocab : Dict :=
  [("Pitch_060", 0); ("Pitch_60", 1); ("Pitch_61", 2)].

Definition padded_self : TransposeAugmenter :=
  {| transpose_range := (-5, 6);
     transpose_values := [-5; -4; -3; -2; -1; 0; 1; 2; 3; 4; 5; 6];
     num_augmentations := 12;
     vocab := padded_vocab;
     token_to_info :=
       <[2 := pitch 61]> (<[1 := pitch 60]> (<[0 := pitch 60]> ∅));
     min_pitch := 21; max_pitch := 109; mid_pitch := 65 |}.

(** The vocabulary of the specification with a range whose bounds are
    in the wrong order. *)
Definition reversed_self : TransposeAugmenter :=
  {| transpose_range := (1, -1);
     transpose_values := [];
     num_augmentations := 0;
     vocab := spec_vocab;
     token_to_info :=
       <[4 := other]> (<[3 := chord "maj"]> (<[2 := pitch 59]>
         (<[1 := pitch 61]> (<[0 := pitch 60]> ∅))));
     min_pitch := 21; max_pitch := 109; mid_pitch := 65 |}.

(** Six lines of an input file: a line that is no JSON, a record with both
    keys, a record with neither, a record whose ['tokens'] is a scalar, a
    JSON value that is no object, and a record with ['ids'] only. *)
Definition sample_lines : list Jsonl.Line :=
  [Jsonl.LMalformed;
   Jsonl.LObject
     {| Jsonl.tokens_key := Some (Jsonl.FInts [3; 0]);
        Jsonl.ids_key := Some (Jsonl.FInts [3; 1]);
        Jsonl.augment_key := None;
        Jsonl.other_keys := {["name" := "first"]} |};
   Jsonl.LObject
     {| Jsonl.tokens_key := None;
        Jsonl.ids_key := None;
        Jsonl.augment_key := None;
        Jsonl.other_keys := ∅ |};
   Jsonl.LObject
     {| Jsonl.tokens_key := Some Jsonl.FScalar;
        Jsonl.ids_key := Some (Jsonl.FInts [3]);
        Jsonl.augment_key := None;
        Jsonl.other_keys := ∅ |};
   Jsonl.LValue;
   Jsonl.LObject
     {| Jsonl.tokens_key := None;
        Jsonl.ids_key := Some (Jsonl.FInts [3; 1]);
        Jsonl.augment_key := Some "old";
        Jsonl.other_keys := ∅ |}].

(** ** Vocabulary of the properties *)

(** [value] is the pitch of some token of [tokens] classified ['pitch']. *)
Definition has_pitch (self : TransposeAugmenter) (tokens : list Z)
    (value : Z) : Prop :=
  ∃ token, token ∈ tokens ∧ token_to_info self !! token = Some (pitch value).

Definition is_pitch_token (self : TransposeAugmenter) (token : Z) : Prop :=
  ∃ value, token_to_info self !! token = Some (pitch value).

(** The pitch value of a token classified ['pitch']. *)
Definition pitch_of (self : TransposeAugmenter) (token : Z) : option Z :=
  match token_to_info self !! token with
  | Some (pitch value) => Some value
  | _ => None
  end.

(** The part of [s] before its first underscore (all of [s] when it has
    none): what the specification calls the suffix "up to the next
    underscore". *)
Fixpoint upto_underscore (s : string) : string :=
  match s with
  | EmptyString => EmptyString
  | String c rest =>
      if Ascii.eqb c "_" then EmptyString else String c (upto_underscore rest)
  end.

(** One turn of the loop of [augment_sequence] seen from outside: the
    pair the turn appends for the configured offset [d], if any. *)
Definition attempt (self : TransposeAugmenter) (tokens : list Z)
    (optimal d : Z) : option (Z * list Z) :=
  (λ transposed, (optimal + d, transposed)) <$>
    transpose_tokens self tokens (optimal + d).

(** * Properties *)

(** Membership in a sequence written out. *)
Ltac in_seq :=
  repeat first [apply list_elem_of_here | apply list_elem_of_further].

(** Finding the pitches of a short concrete sequence by evaluation. *)
Ltac pitches_of_seq H :=
  let token := fresh "token" in
  let Hin := fresh "Hin" in
  let Hinfo := fresh "Hinfo" in
  destruct H as (token & Hin & Hinfo);
  repeat (apply elem_of_cons in Hin as [->|Hin];
          [vm_compute in Hinfo; try discriminate Hinfo;
           try (injection Hinfo as <-) |]);
  try (by apply elem_of_nil in Hin).

(** ** What [__init__] establishes *)

Lemma init_fields vocab_json range self :
  __init__ vocab_json range = Some self →
  vocab self = vocab_json ∧
  transpose_range self = range ∧
  transpose_values self = Py.range range.1 (range.2 + 1) ∧
  num_augmentations self = length (transpose_values self) ∧
  build_token_to_info vocab_json ∅ = Some (token_to_info self) ∧
  min_pitch self = 21 ∧ max_pitch self = 109 ∧ mid_pitch self = 65.
Proof.
  unfold __init__. intros H.
  destruct (build_token_to_info vocab_json ∅) as [tbl|] eqn:Hb;
    simpl in H; [|discriminate].
  injection H as <-. simpl. repeat split; reflexivity.
Qed.

(** ** The transposer loop as a map over the tokens *)

Lemma transpose_token_eq self steps token :
  transpose_token self steps token =
  match token_to_info self !! token with
  | Some (pitch value) =>
      if (value + steps <? min_pitch self) || (value + steps >? max_pitch self)
      then None
      else dict_get (vocab self) ("Pitch_" +:+ Py.str (value + steps))
  | _ => Some token
  end.
Proof.
  unfold transpose_token. simpl.
  destruct (token_to_info self !! token) as [[v| | |]|]; try reflexivity.
  destruct ((v + steps <? min_pitch self) || (v + steps >? max_pitch self));
    [reflexivity|].
  destruct (dict_get _ _); reflexivity.
Qed.

Lemma transpose_loop_mapM self steps tokens result :
  transpose_loop self steps tokens result =
  (λ out, result ++ out) <$> mapM (transpose_token self steps) tokens.
Proof.
  revert result. induction tokens as [|token rest IH]; intros result.
  - simpl. by rewrite app_nil_r.
  - assert (Hcons : ∀ y, transpose_loop self steps rest (result ++ [y]) =
      (λ out, result ++ out) <$>
        ((λ k, y :: k) <$> mapM (transpose_token self steps) rest)).
    { intros y. rewrite IH.
      destruct (mapM _ rest); simpl; [|done]. by rewrite <- app_assoc. }
    change (mapM (transpose_token self steps) (token :: rest)) with
      (y ← transpose_token self steps token;
       k ← mapM (transpose_token self steps) rest; Some (y :: k)).
    rewrite transpose_token_eq. simpl.
    destruct (token_to_info self !! token) as [[v| | |]|]; simpl;
      try apply Hcons.
    destruct ((v + steps <? min_pitch self) || (v + steps >? max_pitch self));
      [reflexivity|].
    destruct (dict_get _ _); simpl; [apply Hcons | reflexivity].
Qed.

Lemma transpose_tokens_mapM self tokens steps :
  steps ≠ 0 →
  transpose_tokens self tokens steps = mapM (transpose_token self steps) tokens.
Proof.
  intros Hs. unfold transpose_tokens.
  destruct (Z.eqb_spec steps 0) as [|_]; [done|].
  rewrite transpose_loop_mapM. by destruct (mapM _ _).
Qed.

Lemma transpose_tokens_zero self tokens :
  transpose_tokens self tokens 0 = Some tokens.
Proof. reflexivity. Qed.

(** ** The list-object transposer refines the pure one *)

Lemma append_insert (σ : gmap Obj.loc (list Z)) l acc x :
  Obj.append (<[l := acc]> σ) l x = <[l := acc ++ [x]]> σ.
Proof.
  unfold Obj.append. rewrite lookup_insert_eq. apply insert_insert_eq.
Qed.

Lemma transpose_for_refines self steps tokens result
    (σ : gmap Obj.loc (list Z)) toks fuel :
  σ !! tokens = Some toks → result ≠ tokens →
  ∀ i acc, (length toks - i < fuel)%nat →
  ∃ final,
    Obj.transpose_for self steps tokens result fuel i (<[result := acc]> σ) =
      Some (<[result := final]> σ,
            (λ _, result) <$> transpose_loop self steps (drop i toks) acc) ∧
    ∀ out, transpose_loop self steps (drop i toks) acc = Some out →
           final = out.
Proof.
  intros Htoks Hne. induction fuel as [|fuel IH]; intros i acc Hfuel; [lia|].
  simpl. rewrite lookup_insert_ne, Htoks by done. simpl.
  destruct (toks !! i) as [token|] eqn:Hi.
  - rewrite (drop_S _ _ _ Hi). simpl.
    assert (Hstep : ∀ x, ∃ final,
      Obj.transpose_for self steps tokens result fuel (S i)
        (Obj.append (<[result := acc]> σ) result x) =
        Some (<[result := final]> σ,
              (λ _, result) <$>
                transpose_loop self steps (drop (S i) toks) (acc ++ [x])) ∧
      ∀ out, transpose_loop self steps (drop (S i) toks) (acc ++ [x]) =
             Some out → final = out).
    { intros x. rewrite append_insert. apply IH.
      apply lookup_lt_Some in Hi. lia. }
    destruct (token_to_info self !! token) as [[v| | |]|]; try apply Hstep.
    destruct ((v + steps <? min_pitch self) || (v + steps >? max_pitch self)).
    { exists acc. split; [reflexivity | discriminate]. }
    destruct (dict_get _ _); [apply Hstep|].
    exists acc. split; [reflexivity | discriminate].
  - apply lookup_ge_None in Hi. rewrite (drop_ge _ _ Hi). simpl.
    exists acc. split; [reflexivity | by intros out [= <-]].
Qed.

(** Calling the transposer on the list object [tokens] always returns;
    it leaves every object of the caller's store as it was, and what it
    returns is what the pure [transpose_tokens] computes, held by an object
    that did not exist before the call. *)
Lemma obj_transpose_tokens_refines self (σ : gmap Obj.loc (list Z))
    tokens toks steps :
  σ !! tokens = Some toks →
  ∃ σ' ret,
    Obj.transpose_tokens self σ tokens steps = Some (σ', ret) ∧
    (∀ l, l ∈ dom σ → σ' !! l = σ !! l) ∧
    match transpose_tokens self toks steps with
    | Some out => ∃ l, ret = Some l ∧ (l ∉ dom σ) ∧ σ' !! l = Some out
    | None => ret = None
    end.
Proof.
  intros Htoks. unfold Obj.transpose_tokens, transpose_tokens, Obj.alloc.
  rewrite Htoks. cbv beta iota zeta delta [mbind option_bind].
  pose proof (is_fresh (dom σ)) as Hfresh. set (r := fresh (dom σ)) in *.
  assert (Hother : ∀ v l, l ∈ dom σ → <[r := v]> σ !! l = σ !! l).
  { intros v l Hl. apply lookup_insert_ne. intros ->. done. }
  destruct (steps =? 0).
  - eexists _, _. split; [reflexivity|]. split; [apply Hother|].
    exists r. by rewrite lookup_insert_eq.
  - assert (Hne : r ≠ tokens).
    { intros ->. apply Hfresh, elem_of_dom. eauto. }
    destruct (transpose_for_refines self steps tokens r σ toks
                (S (length toks)) Htoks Hne 0%nat []) as (final & -> & Hfin);
      [lia|].
    rewrite drop_0 in *.
    eexists _, _. split; [reflexivity|]. split; [apply Hother|].
    destruct (transpose_loop self steps toks []) as [out|]; simpl; [|done].
    exists r. rewrite (Hfin out eq_refl), lookup_insert_eq. done.
Qed.

(** ** The Python primitives on examples *)

Lemma py_primitives_examples :
  Py.split "_" "Pitch_60" = ["Pitch"; "60"]%string ∧
  Py.split "_" "Chord_maj_x" = ["Chord"; "maj"; "x"]%string ∧
  Py.split "_" "" = [""]%string ∧
  Py.split "_" "_a_" = [""; "a"; ""]%string ∧
  Py.int "60" = Some 60 ∧ Py.int " 60 " = Some 60 ∧ Py.int "007" = Some 7 ∧
  Py.int "-5" = Some (-5) ∧ Py.int "+5" = Some 5 ∧ Py.int "1_0" = Some 10 ∧
  Py.int "" = None ∧ Py.int "6a" = None ∧ Py.int "- 5" = None ∧
  Py.int "_1" = None ∧ Py.int "1__0" = None ∧ Py.int "1_" = None ∧
  Py.str 0 = "0" ∧ Py.str 109 = "109" ∧ Py.str (-12) = "-12" ∧
  Py.range (-1) 2 = [-1; 0; 1] ∧ Py.range 3 3 = [] ∧ Py.range 5 2 = [] ∧
  Py.min 4 [2; 9] = 2 ∧ Py.max 4 [2; 9] = 9.
Proof. repeat split; vm_compute; reflexivity. Qed.

(** ** The running vocabularies are dicts, and [__init__] accepts them *)

Lemma running_vocabs_wf :
  dict_wf spec_vocab ∧ dict_wf low_vocab ∧ dict_wf edge_vocab ∧
  dict_wf wide_vocab ∧ dict_wf mid_vocab ∧ dict_wf padded_vocab.
Proof.
  repeat split; apply (bool_decide_unpack _); vm_compute; exact I.
Qed.

Lemma init_running_selves :
  __init__ spec_vocab (-1, 1) = Some spec_self ∧
  __init__ low_vocab (-5, 6) = Some low_self ∧
  __init__ edge_vocab (-5, 6) = Some edge_self ∧
  __init__ wide_vocab (-5, 6) = Some wide_self ∧
  __init__ mid_vocab (-1, 2) = Some mid_self ∧
  __init__ padded_vocab (-5, 6) = Some padded_self.
Proof. repeat split; vm_compute; reflexivity. Qed.

(** ** Checking a property of every pitch of the range by evaluation *)

Lemma pitch_range_forallb (P : Z → bool) :
  forallb P (seqZ 21 89) = true → ∀ n, 21 ≤ n ≤ 109 → P n = true.
Proof.
  intros H n Hn. rewrite forallb_forall in H. apply H.
  apply list_elem_of_In, elem_of_seqZ. lia.
Qed.

(** In [low_vocab] no string ["Pitch_n"] with [n] in the range is a key. *)
Lemma low_vocab_no_target n :
  21 ≤ n ≤ 109 → dict_get low_vocab ("Pitch_" +:+ Py.str n) = None.
Proof.
  intros Hn.
  pose proof (pitch_range_forallb
    (λ n, match dict_get low_vocab ("Pitch_" +:+ Py.str n) with
          | None => true
          | Some _ => false
          end)) as H.
  specialize (H ltac:(vm_compute; reflexivity) n Hn). cbv beta in H.
  by destruct (dict_get low_vocab _).
Qed.

(** The token [0] of [low_self] cannot be moved by any non-zero amount. *)
Lemma low_self_fails_everywhere steps :
  steps ≠ 0 → transpose_tokens low_self [0] steps = None.
Proof.
  intros Hs. rewrite transpose_tokens_mapM by done.
  change (mapM (transpose_token low_self steps) [0]) with
    (y ← transpose_token low_self steps 0; Some [y]).
  rewrite transpose_token_eq.
  change (token_to_info low_self !! 0) with (Some (pitch 5)).
  change (min_pitch low_self) with 21. change (max_pitch low_self) with 109.
  change (vocab low_self) with low_vocab. cbv beta iota.
  destruct (Z.ltb_spec (5 + steps) 21); [reflexivity|].
  destruct (Z.gtb_spec (5 + steps) 109); [reflexivity|]. cbn [orb].
  rewrite low_vocab_no_target; [reflexivity | lia].
Qed.

(** ** When the transposer fails *)

Lemma transpose_token_None self steps token :
  transpose_token self steps token = None ↔
  ∃ value, token_to_info self !! token = Some (pitch value) ∧
    (value + steps < min_pitch self ∨ max_pitch self < value + steps ∨
     dict_get (vocab self) ("Pitch_" +:+ Py.str (value + steps)) = None).
Proof.
  rewrite transpose_token_eq.
  destruct (token_to_info self !! token) as [[v| | |]|];
    try (split; [discriminate | by intros (? & [=] & _)]).
  destruct (Z.ltb_spec (v + steps) (min_pitch self)) as [Hlo|Hlo];
    [split; [|done]; intros _; exists v; auto|].
  destruct (Z.gtb_spec (v + steps) (max_pitch self)) as [Hhi|Hhi];
    [split; [|done]; intros _; exists v; split; [done|]; right; left; lia|].
  cbn [orb]. split.
  - intros H. exists v. auto.
  - intros (v' & [= <-] & [?|[?|?]]); [lia | lia | done].
Qed.

Lemma transpose_tokens_None self tokens steps :
  steps ≠ 0 →
  transpose_tokens self tokens steps = None ↔
  ∃ token value, token ∈ tokens ∧
    token_to_info self !! token = Some (pitch value) ∧
    (value + steps < min_pitch self ∨ max_pitch self < value + steps ∨
     dict_get (vocab self) ("Pitch_" +:+ Py.str (value + steps)) = None).
Proof.
  intros Hs. rewrite transpose_tokens_mapM, mapM_None, Exists_exists by done.
  split.
  - intros (token & Hin & Hnone). apply transpose_token_None in Hnone.
    destruct Hnone as (v & ? & ?). eauto 6.
  - intros (token & v & Hin & Hinfo & Hbad). exists token. split; [done|].
    apply transpose_token_None. eauto.
Qed.

Lemma transpose_tokens_length self tokens steps result :
  transpose_tokens self tokens steps = Some result →
  length result = length tokens.
Proof.
  destruct (decide (steps = 0)) as [->|Hs].
  - by intros [= <-].
  - rewrite transpose_tokens_mapM by done. intros H.
    symmetry. by eapply length_mapM.
Qed.

(** A failing call returns [None] and leaves the caller's store as it
    was. *)
Lemma obj_transpose_tokens_fails self (σ : gmap Obj.loc (list Z))
    l tokens steps :
  σ !! l = Some tokens →
  transpose_tokens self tokens steps = None →
  ∃ σ', Obj.transpose_tokens self σ l steps = Some (σ', None) ∧
        ∀ l', l' ∈ dom σ → σ' !! l' = σ !! l'.
Proof.
  intros Hl Hfail.
  destruct (obj_transpose_tokens_refines self σ l tokens steps Hl)
    as (σ' & ret & Hrun & Hframe & Hret).
  rewrite Hfail in Hret. subst ret. eauto.
Qed.

(** C1.  For an augmenter built by [__init__], a token sequence and a
    non-zero number of steps, [transpose_tokens] returns [None] exactly
    when some token classified ['pitch'] has [value + steps] below 21 or
    above 109, or has no key ["Pitch_{value + steps}"] in the vocabulary.
    The call yields either [None] or a whole sequence of the input's
    length, and a failing call on a list object hands back no object and
    leaves the caller's store untouched.  A pitch 21 moved by -1 and a
    pitch 109 moved by +1 fail. *)
Theorem transpose_fails_iff vocab_json range self tokens :
  __init__ vocab_json range = Some self →
  (∀ steps, steps ≠ 0 →
     (transpose_tokens self tokens steps = None ↔
      ∃ token value, token ∈ tokens ∧
        token_to_info self !! token = Some (pitch value) ∧
        (value + steps < 21 ∨ 109 < value + steps ∨
         dict_get vocab_json ("Pitch_" +:+ Py.str (value + steps)) = None)) ∧
     (∀ result, transpose_tokens self tokens steps = Some result →
        length result = length tokens) ∧
     (∀ (σ : gmap Obj.loc (list Z)) l,
        σ !! l = Some tokens →
        transpose_tokens self tokens steps = None →
        ∃ σ', Obj.transpose_tokens self σ l steps = Some (σ', None) ∧
              ∀ l', l' ∈ dom σ → σ' !! l' = σ !! l')) ∧
  (has_pitch self tokens 21 → transpose_tokens self tokens (-1) = None) ∧
  (has_pitch self tokens 109 → transpose_tokens self tokens 1 = None).
Proof.
  intros Hinit.
  destruct (init_fields _ _ _ Hinit) as (Hv & _ & _ & _ & _ & Hmin & Hmax & _).
  pose proof (transpose_tokens_None self tokens) as Hnone.
  rewrite Hv, Hmin, Hmax in Hnone.
  split; [|split].
  - intros steps Hs. split; [by apply Hnone|]. split.
    + apply transpose_tokens_length.
    + intros σ l. apply obj_transpose_tokens_fails.
  - intros (token & Hin & Hinfo). apply Hnone; [done|].
    exists token, 21. split; [done|]. split; [done|]. left. lia.
  - intros (token & Hin & Hinfo). apply Hnone; [done|].
    exists token, 109. split; [done|]. split; [done|]. right. left. lia.
Qed.

Lemma transpose_fails_iff_witness :
  __init__ edge_vocab (-5, 6) = Some edge_self ∧
  transpose_tokens edge_self [3; 0; 4] (-1) = None ∧
  transpose_tokens edge_self [3; 1; 4] 1 = None.
Proof.
  split; [vm_compute; reflexivity|].
  destruct (transpose_fails_iff edge_vocab (-5, 6) edge_self [3; 0; 4])
    as (_ & Hlow & _); [vm_compute; reflexivity|].
  destruct (transpose_fails_iff edge_vocab (-5, 6) edge_self [3; 1; 4])
    as (_ & _ & Hhigh); [vm_compute; reflexivity|].
  split.
  - apply Hlow. exists 0. split; [in_seq | reflexivity].
  - apply Hhigh. exists 1. split; [in_seq | reflexivity].
Defined.

(** ** What the transposer leaves alone *)

Lemma transpose_token_other self steps token :
  ¬ is_pitch_token self token → transpose_token self steps token = Some token.
Proof.
  intros Hnp. rewrite transpose_token_eq.
  destruct (token_to_info self !! token) as [[v| | |]|] eqn:Hinfo; try done.
  destruct Hnp. by exists v.
Qed.

Lemma transpose_tokens_lookup self tokens steps result i token :
  steps ≠ 0 →
  transpose_tokens self tokens steps = Some result →
  tokens !! i = Some token →
  ∃ y, result !! i = Some y ∧ transpose_token self steps token = Some y.
Proof.
  intros Hs. rewrite transpose_tokens_mapM, mapM_Some by done.
  intros Hall Hi. by apply (Forall2_lookup_l _ _ _ _ _ Hall Hi).
Qed.

Lemma transpose_tokens_frame self tokens steps result i token :
  transpose_tokens self tokens steps = Some result →
  tokens !! i = Some token →
  ¬ is_pitch_token self token →
  result !! i = Some token.
Proof.
  intros Hrun Hi Hnp. destruct (decide (steps = 0)) as [->|Hs].
  - by injection Hrun as <-.
  - destruct (transpose_tokens_lookup _ _ _ _ _ _ Hs Hrun Hi) as (y & Hy & Ht).
    rewrite transpose_token_other in Ht by done. congruence.
Qed.

(** C5.  Whenever [transpose_tokens] succeeds, the output has the length
    of the input and every token that is not classified ['pitch'] (drum
    pitch, chord, other, or an id absent from the table) sits unchanged at
    its position.  On list objects, a call, failing or not, changes no
    object of the caller's store (the input list in particular), and a
    failing call returns no object. *)
Theorem transpose_frame self (σ : gmap Obj.loc (list Z)) l tokens steps :
  σ !! l = Some tokens →
  (∀ result, transpose_tokens self tokens steps = Some result →
     length result = length tokens ∧
     (∀ i token, tokens !! i = Some token →
        ¬ is_pitch_token self token → result !! i = Some token) ∧
     (∀ i token, tokens !! i = Some token →
        (∃ v, token_to_info self !! token = Some (drum_pitch v)) ∨
        (∃ q, token_to_info self !! token = Some (chord q)) ∨
        token_to_info self !! token = Some other ∨
        token_to_info self !! token = None →
        result !! i = Some token)) ∧
  ∃ σ' ret,
    Obj.transpose_tokens self σ l steps = Some (σ', ret) ∧
    (∀ l', l' ∈ dom σ → σ' !! l' = σ !! l') ∧
    σ' !! l = Some tokens ∧
    (transpose_tokens self tokens steps = None → ret = None).
Proof.
  intros Hl. split.
  - intros result Hrun. split; [by eapply transpose_tokens_length|].
    split.
    + intros i token. by apply (transpose_tokens_frame _ _ _ _ _ _ Hrun).
    + intros i token Hi Hcat. apply (transpose_tokens_frame _ _ _ _ _ _ Hrun Hi).
      intros (v & Hv). rewrite Hv in Hcat.
      destruct Hcat as [(? & [=])|[(? & [=])|[[=]|[=]]]].
  - destruct (obj_transpose_tokens_refines self σ l tokens steps Hl)
      as (σ' & ret & Hrun & Hframe & Hret).
    exists σ', ret. split; [done|]. split; [done|]. split.
    + rewrite Hframe; [done|]. apply elem_of_dom. eauto.
    + intros Hfail. by rewrite Hfail in Hret.
Qed.

Lemma transpose_frame_witness :
  ({[1%positive := [3; 0; 4]]} : gmap Obj.loc (list Z)) !! 1%positive =
    Some [3; 0; 4] ∧
  transpose_tokens edge_self [3; 0; 4] 1 = Some [3; 2; 4] ∧
  length [3; 2; 4] = length [3; 0; 4] ∧
  [3; 2; 4] !! 0%nat = Some 3 ∧ [3; 2; 4] !! 2%nat = Some 4.
Proof.
  assert (Hl : ({[1%positive := [3; 0; 4]]} : gmap Obj.loc (list Z))
                 !! 1%positive = Some [3; 0; 4]) by (vm_compute; reflexivity).
  split; [exact Hl|].
  destruct (transpose_frame edge_self _ 1%positive [3; 0; 4] 1 Hl)
    as (Hpure & _).
  destruct (Hpure [3; 2; 4]) as (Hlen & _ & Hsame);
    [vm_compute; reflexivity|].
  split; [vm_compute; reflexivity|]. split; [exact Hlen|]. split.
  - apply (Hsame 0%nat 3); [reflexivity|]. left. exists 36. reflexivity.
  - apply (Hsame 2%nat 4); [reflexivity|]. right. left. exists "maj".
    reflexivity.
Defined.

(** ** Zero steps *)

(** C8.  [transpose_tokens] with zero steps succeeds and returns a
    sequence equal to the input; on list objects the value returned is a
    list object that did not exist before the call, different from the
    input object, and the input object still holds the same sequence. *)
Theorem transpose_zero_identity self (σ : gmap Obj.loc (list Z)) l tokens :
  σ !! l = Some tokens →
  transpose_tokens self tokens 0 = Some tokens ∧
  ∃ σ' copy,
    Obj.transpose_tokens self σ l 0 = Some (σ', Some copy) ∧
    copy ≠ l ∧ (copy ∉ dom σ) ∧
    σ' !! copy = Some tokens ∧ σ' !! l = Some tokens.
Proof.
  intros Hl. split; [reflexivity|].
  destruct (obj_transpose_tokens_refines self σ l tokens 0 Hl)
    as (σ' & ret & Hrun & Hframe & Hret).
  rewrite transpose_tokens_zero in Hret.
  destruct Hret as (copy & -> & Hfresh & Hcopy).
  assert (Hdom : l ∈ dom σ) by (apply elem_of_dom; eauto).
  exists σ', copy. split; [done|]. split; [by intros ->|].
  split; [done|]. split; [done|]. by rewrite Hframe.
Qed.

Lemma transpose_zero_identity_witness :
  ({[1%positive := [4; 0; 3]]} : gmap Obj.loc (list Z)) !! 1%positive =
    Some [4; 0; 3] ∧
  transpose_tokens spec_self [4; 0; 3] 0 = Some [4; 0; 3].
Proof.
  assert (Hl : ({[1%positive := [4; 0; 3]]} : gmap Obj.loc (list Z))
                 !! 1%positive = Some [4; 0; 3]) by (vm_compute; reflexivity).
  split; [exact Hl|].
  exact (proj1 (transpose_zero_identity spec_self _ 1%positive [4; 0; 3] Hl)).
Defined.

Lemma transpose_loop_zero_rejects self tokens value :
  has_pitch self tokens value →
  value < min_pitch self ∨ max_pitch self < value ∨
    dict_get (vocab self) ("Pitch_" +:+ Py.str value) = None →
  transpose_loop self 0 tokens [] = None.
Proof.
  intros (token & Hin & Hinfo) Hbad.
  rewrite transpose_loop_mapM.
  assert (mapM (transpose_token self 0) tokens = None) as ->; [|done].
  apply mapM_None, Exists_exists. exists token. split; [done|].
  apply transpose_token_None. exists value. by rewrite Z.add_0_r.
Qed.

(** C9.  With zero steps [transpose_tokens] checks nothing: it returns the
    input sequence whatever the sequence holds, although the loop that
    validates, run with zero steps, would return [None] as soon as some
    pitch token lies outside [21, 109] or names a string ["Pitch_{value}"]
    that is no key of the vocabulary.  In particular a sequence that
    fails at every non-zero number of steps succeeds at zero; [[0]] over
    [low_vocab] is one. *)
Theorem transpose_zero_unchecked vocab_json range self tokens :
  __init__ vocab_json range = Some self →
  transpose_tokens self tokens 0 = Some tokens ∧
  (∀ value,
     has_pitch self tokens value →
     value < 21 ∨ 109 < value ∨
       dict_get vocab_json ("Pitch_" +:+ Py.str value) = None →
     transpose_loop self 0 tokens [] = None ∧
     transpose_tokens self tokens 0 = Some tokens) ∧
  ((∀ steps, steps ≠ 0 → transpose_tokens self tokens steps = None) →
   transpose_tokens self tokens 0 = Some tokens).
Proof.
  intros Hinit.
  destruct (init_fields _ _ _ Hinit) as (Hv & _ & _ & _ & _ & Hmin & Hmax & _).
  split; [reflexivity|]. split; [|reflexivity].
  intros value Hp Hbad. split; [|reflexivity].
  apply (transpose_loop_zero_rejects self tokens value Hp).
  by rewrite Hv, Hmin, Hmax.
Qed.

Lemma transpose_zero_unchecked_witness :
  __init__ low_vocab (-5, 6) = Some low_self ∧
  has_pitch low_self [0] 5 ∧
  (∀ steps, steps ≠ 0 → transpose_tokens low_self [0] steps = None) ∧
  transpose_loop low_self 0 [0] [] = None ∧
  transpose_tokens low_self [0] 0 = Some [0].
Proof.
  assert (Hp : has_pitch low_self [0] 5).
  { exists 0. split; [in_seq | reflexivity]. }
  split; [vm_compute; reflexivity|]. split; [exact Hp|].
  split; [exact low_self_fails_everywhere|].
  destruct (transpose_zero_unchecked low_vocab (-5, 6) low_self [0])
    as (_ & Hloop & _); [vm_compute; reflexivity|].
  apply (Hloop 5 Hp). left. lia.
Defined.

(** ** The centring offset *)

Lemma collect_pitches_omap self tokens acc :
  collect_pitches self tokens acc = acc ++ omap (pitch_of self) tokens.
Proof.
  revert acc. induction tokens as [|token rest IH]; intros acc; simpl.
  - by rewrite app_nil_r.
  - unfold pitch_of at 1.
    destruct (token_to_info self !! token) as [[v| | |]|]; rewrite IH; try done.
    by rewrite <- app_assoc.
Qed.

Lemma elem_of_collect_pitches self tokens value :
  value ∈ collect_pitches self tokens [] ↔ has_pitch self tokens value.
Proof.
  rewrite collect_pitches_omap, app_nil_l, list_elem_of_omap.
  unfold has_pitch, pitch_of. split.
  - intros (token & Hin & Hp). exists token. split; [done|].
    destruct (token_to_info self !! token) as [[v| | |]|]; congruence.
  - intros (token & Hin & Hinfo). exists token. by rewrite Hinfo.
Qed.

Lemma py_min_spec p ps :
  Py.min p ps ∈ p :: ps ∧ ∀ v, v ∈ p :: ps → Py.min p ps ≤ v.
Proof.
  unfold Py.min. revert p. induction ps as [|a ps IH]; intros p; simpl.
  - split; [apply elem_of_cons; auto|].
    intros v Hv. apply elem_of_cons in Hv as [->|Hv]; [lia|].
    by apply elem_of_nil in Hv.
  - destruct (IH (Z.min p a)) as [Hin Hle].
    assert (Hbase := Hle (Z.min p a) ltac:(apply elem_of_cons; auto)).
    split.
    + apply elem_of_cons in Hin as [Hin|Hin].
      * rewrite Hin. rewrite !elem_of_cons.
        destruct (Z.min_spec p a) as [[_ ->]|[_ ->]]; auto.
      * rewrite !elem_of_cons. auto.
    + intros v Hv. rewrite !elem_of_cons in Hv.
      destruct Hv as [->|[->|Hv]]; [lia | lia |].
      apply Hle, elem_of_cons. auto.
Qed.

Lemma py_max_spec p ps :
  Py.max p ps ∈ p :: ps ∧ ∀ v, v ∈ p :: ps → v ≤ Py.max p ps.
Proof.
  unfold Py.max. revert p. induction ps as [|a ps IH]; intros p; simpl.
  - split; [apply elem_of_cons; auto|].
    intros v Hv. apply elem_of_cons in Hv as [->|Hv]; [lia|].
    by apply elem_of_nil in Hv.
  - destruct (IH (Z.max p a)) as [Hin Hle].
    assert (Hbase := Hle (Z.max p a) ltac:(apply elem_of_cons; auto)).
    split.
    + apply elem_of_cons in Hin as [Hin|Hin].
      * rewrite Hin. rewrite !elem_of_cons.
        destruct (Z.max_spec p a) as [[_ ->]|[_ ->]]; auto.
      * rewrite !elem_of_cons. auto.
    + intros v Hv. rewrite !elem_of_cons in Hv.
      destruct Hv as [->|[->|Hv]]; [lia | lia |].
      apply Hle, elem_of_cons. auto.
Qed.

(** The value computed once the extreme pitches are known. *)
Lemma find_optimal_transpose_eq self tokens current_min current_max :
  has_pitch self tokens current_min →
  (∀ v, has_pitch self tokens v → current_min ≤ v) →
  has_pitch self tokens current_max →
  (∀ v, has_pitch self tokens v → v ≤ current_max) →
  find_optimal_transpose self tokens =
    let candidate := mid_pitch self - (current_min + current_max) / 2 in
    if current_min + candidate <? min_pitch self
    then min_pitch self - current_min
    else if current_max + candidate >? max_pitch self
    then max_pitch self - current_max
    else candidate.
Proof.
  intros Hmin Hmin_le Hmax Hmax_ge. unfold find_optimal_transpose.
  pose proof (elem_of_collect_pitches self tokens) as Hcol.
  destruct (collect_pitches self tokens []) as [|p ps].
  { apply Hcol, elem_of_nil in Hmin. destruct Hmin. }
  destruct (py_min_spec p ps) as [Hm1 Hm2].
  destruct (py_max_spec p ps) as [HM1 HM2].
  assert (Py.min p ps = current_min) as ->.
  { apply Z.le_antisymm; [apply Hm2; by apply Hcol|].
    apply Hmin_le. by apply Hcol. }
  assert (Py.max p ps = current_max) as ->.
  { apply Z.le_antisymm; [apply Hmax_ge; by apply Hcol|].
    apply HM2. by apply Hcol. }
  reflexivity.
Qed.

Lemma find_optimal_transpose_no_pitch self tokens :
  (∀ value, ¬ has_pitch self tokens value) →
  find_optimal_transpose self tokens = 0.
Proof.
  intros Hno. unfold find_optimal_transpose.
  pose proof (elem_of_collect_pitches self tokens) as Hcol.
  destruct (collect_pitches self tokens []) as [|p ps]; [done|].
  destruct (Hno p). apply Hcol. apply list_elem_of_here.
Qed.

(** A sequence with a pitch token has a lowest and a highest pitch. *)
Lemma has_pitch_extremes self tokens value :
  has_pitch self tokens value →
  ∃ current_min current_max,
    has_pitch self tokens current_min ∧
    (∀ v, has_pitch self tokens v → current_min ≤ v) ∧
    has_pitch self tokens current_max ∧
    (∀ v, has_pitch self tokens v → v ≤ current_max).
Proof.
  intros Hp. pose proof (elem_of_collect_pitches self tokens) as Hcol.
  destruct (collect_pitches self tokens []) as [|p ps].
  { apply Hcol, elem_of_nil in Hp. destruct Hp. }
  destruct (py_min_spec p ps) as [Hm1 Hm2].
  destruct (py_max_spec p ps) as [HM1 HM2].
  exists (Py.min p ps), (Py.max p ps).
  split; [by apply Hcol|]. split; [intros v Hv; apply Hm2; by apply Hcol|].
  split; [by apply Hcol|]. intros v Hv; apply HM2; by apply Hcol.
Qed.

(** C2.  [find_optimal_transpose] returns 0 when no token of the sequence
    is classified ['pitch'] (drum pitches and chords do not count).
    Otherwise, with [current_min] and [current_max] the least and greatest
    pitch values of the sequence and
    [candidate = 65 - (current_min + current_max) // 2], it returns
    [21 - current_min] if [current_min + candidate < 21], else
    [109 - current_max] if [current_max + candidate > 109], else
    [candidate]. *)
Theorem find_optimal_transpose_spec vocab_json range self tokens :
  __init__ vocab_json range = Some self →
  ((∀ value, ¬ has_pitch self tokens value) →
   find_optimal_transpose self tokens = 0) ∧
  (∀ current_min current_max,
     has_pitch self tokens current_min →
     (∀ v, has_pitch self tokens v → current_min ≤ v) →
     has_pitch self tokens current_max →
     (∀ v, has_pitch self tokens v → v ≤ current_max) →
     let current_center := (current_min + current_max) / 2 in
     let candidate := 65 - current_center in
     find_optimal_transpose self tokens =
       if current_min + candidate <? 21 then 21 - current_min
       else if current_max + candidate >? 109 then 109 - current_max
       else candidate).
Proof.
  intros Hinit.
  destruct (init_fields _ _ _ Hinit) as (_ & _ & _ & _ & _ & Hmin & Hmax & Hmid).
  split; [apply find_optimal_transpose_no_pitch|].
  intros mn mx H1 H2 H3 H4.
  rewrite (find_optimal_transpose_eq self tokens mn mx H1 H2 H3 H4).
  by rewrite Hmin, Hmax, Hmid.
Qed.

Lemma find_optimal_transpose_spec_witness :
  __init__ edge_vocab (-5, 6) = Some edge_self ∧
  find_optimal_transpose edge_self [3; 0; 2; 4] = 44.
Proof.
  split; [vm_compute; reflexivity|].
  destruct (find_optimal_transpose_spec edge_vocab (-5, 6) edge_self
              [3; 0; 2; 4]) as (_ & Hopt); [vm_compute; reflexivity|].
  rewrite (Hopt 21 22).
  - reflexivity.
  - exists 0. split; [in_seq | reflexivity].
  - intros v Hv. pitches_of_seq Hv; lia.
  - exists 2. split; [in_seq | reflexivity].
  - intros v Hv. pitches_of_seq Hv; lia.
Defined.

(** ** Transposing by the centring offset *)

(** C3, as stated, fails.  In the vocabulary of the specification's own
    example the centring offset of [[4; 0; 3]] is 5 and ["Pitch_65"] is no
    key, so transposing by that offset fails; with pitches 10 and 120 the
    offset is 11, which takes 120 to 131, above 109, and transposing by
    it fails as well. *)
Lemma optimal_transpose_may_fail :
  (__init__ spec_vocab (-1, 1) = Some spec_self ∧
   find_optimal_transpose spec_self [4; 0; 3] = 5 ∧
   transpose_tokens spec_self [4; 0; 3]
     (find_optimal_transpose spec_self [4; 0; 3]) = None) ∧
  (__init__ wide_vocab (-5, 6) = Some wide_self ∧
   find_optimal_transpose wide_self [0; 1] = 11 ∧
   has_pitch wide_self [0; 1] 120 ∧
   109 < 120 + find_optimal_transpose wide_self [0; 1] ∧
   transpose_tokens wide_self [0; 1]
     (find_optimal_transpose wide_self [0; 1]) = None).
Proof.
  repeat split; try (vm_compute; reflexivity).
  exists 1. split; [in_seq | reflexivity].
Qed.

(** C3, amended.  When the pitch values of the sequence lie at most
    [109 - 21 = 88] apart, the offset returned by [find_optimal_transpose]
    takes every pitch token to a value within [21, 109], and
    [transpose_tokens] at that offset fails exactly when the offset is not
    zero and the string ["Pitch_{value + offset}"] of some pitch token is
    no key of the vocabulary. *)
Theorem optimal_transpose_in_range vocab_json range self tokens :
  __init__ vocab_json range = Some self →
  (∀ v w, has_pitch self tokens v → has_pitch self tokens w → w - v ≤ 88) →
  let optimal := find_optimal_transpose self tokens in
  (∀ value, has_pitch self tokens value → 21 ≤ value + optimal ≤ 109) ∧
  (transpose_tokens self tokens optimal = None ↔
   optimal ≠ 0 ∧
   ∃ value, has_pitch self tokens value ∧
     dict_get vocab_json ("Pitch_" +:+ Py.str (value + optimal)) = None).
Proof.
  intros Hinit Hspan optimal.
  destruct (init_fields _ _ _ Hinit) as (Hv & _ & _ & _ & _ & Hmin & Hmax & Hmid).
  assert (Hrange : ∀ value, has_pitch self tokens value →
                            21 ≤ value + optimal ≤ 109).
  { intros value Hp.
    destruct (has_pitch_extremes self tokens value Hp)
      as (mn & mx & Hmn & Hmn_le & Hmx & Hmx_ge).
    pose proof (find_optimal_transpose_eq self tokens mn mx
                  Hmn Hmn_le Hmx Hmx_ge) as Heq.
    fold optimal in Heq. rewrite Hmin, Hmax, Hmid in Heq. cbv zeta in Heq.
    pose proof (Hspan mn mx Hmn Hmx). pose proof (Hmn_le value Hp).
    pose proof (Hmx_ge value Hp).
    destruct (Z.ltb_spec (mn + (65 - (mn + mx) / 2)) 21); [lia|].
    destruct (Z.gtb_spec (mx + (65 - (mn + mx) / 2)) 109); lia. }
  split; [exact Hrange|].
  destruct (decide (optimal = 0)) as [Hz|Hnz].
  - rewrite Hz. rewrite transpose_tokens_zero. split; [discriminate|].
    by intros [? _].
  - rewrite transpose_tokens_None, Hv, Hmin, Hmax by done. split.
    + intros (token & value & Hin & Hinfo & Hbad). split; [done|].
      assert (Hp : has_pitch self tokens value) by (exists token; done).
      specialize (Hrange value Hp). exists value. split; [done|].
      destruct Hbad as [?|[?|?]]; [lia | lia | assumption].
    + intros (_ & value & (token & Hin & Hinfo) & Hgap).
      exists token, value. auto.
Qed.

Lemma optimal_transpose_in_range_witness :
  __init__ edge_vocab (-5, 6) = Some edge_self ∧
  (∀ v w, has_pitch edge_self [3; 0; 2; 4] v →
          has_pitch edge_self [3; 0; 2; 4] w → w - v ≤ 88) ∧
  21 ≤ 22 + find_optimal_transpose edge_self [3; 0; 2; 4] ≤ 109.
Proof.
  assert (Hspan : ∀ v w, has_pitch edge_self [3; 0; 2; 4] v →
            has_pitch edge_self [3; 0; 2; 4] w → w - v ≤ 88).
  { intros v w Hv Hw. pitches_of_seq Hv; pitches_of_seq Hw; lia. }
  split; [vm_compute; reflexivity|]. split; [exact Hspan|].
  destruct (optimal_transpose_in_range edge_vocab (-5, 6) edge_self
              [3; 0; 2; 4]) as (Hrange & _);
    [vm_compute; reflexivity | exact Hspan |].
  apply Hrange. exists 2. split; [in_seq | reflexivity].
Defined.

(** ** The classifier *)

Lemma startswith_app p s :
  Py.startswith s p = true ↔ ∃ rest, s = p +:+ rest.
Proof.
  unfold Py.startswith. revert s. induction p as [|a p IH]; intros s.
  - split; [intros _; by exists s | intros _; by destruct s].
  - destruct s as [|b s]; simpl.
    + split; [discriminate | by intros (rest & [=])].
    + destruct (ascii_dec a b) as [->|Hab].
      * rewrite IH. split; intros (rest & Hrest); exists rest;
          [by rewrite Hrest | by injection Hrest].
      * split; [discriminate | intros (rest & [=]); congruence].
Qed.

Lemma split_head s : head (Py.split "_" s) = Some (upto_underscore s).
Proof.
  induction s as [|c s IH]; simpl; [reflexivity|].
  destruct (Ascii.eqb c "_"); [reflexivity|].
  destruct (Py.split "_" s) as [|seg segs]; [discriminate|].
  simpl in *. congruence.
Qed.

Lemma split_second_Pitch rest :
  Py.split "_" ("Pitch_" +:+ rest) !! 1%nat = Some (upto_underscore rest).
Proof.
  pose proof (split_head rest) as H. simpl.
  change ("" +:+ rest) with rest.
  destruct (Py.split "_" rest); [discriminate | exact H].
Qed.

Lemma split_second_PitchDrum rest :
  Py.split "_" ("PitchDrum_" +:+ rest) !! 1%nat = Some (upto_underscore rest).
Proof.
  pose proof (split_head rest) as H. simpl.
  change ("" +:+ rest) with rest.
  destruct (Py.split "_" rest); [discriminate | exact H].
Qed.

Lemma split_second_Chord rest :
  Py.split "_" ("Chord_" +:+ rest) !! 1%nat = Some (upto_underscore rest).
Proof.
  pose proof (split_head rest) as H. simpl.
  change ("" +:+ rest) with rest.
  destruct (Py.split "_" rest); [discriminate | exact H].
Qed.

Lemma upto_underscore_all s :
  (∀ c, c ∈ list_ascii_of_string s → c ≠ "_"%char) → upto_underscore s = s.
Proof.
  induction s as [|c s IH]; simpl; intros Hno; [reflexivity|].
  destruct (Ascii.eqb_spec c "_") as [->|_].
  - destruct (Hno "_"%char); [apply list_elem_of_here | reflexivity].
  - rewrite IH; [reflexivity|]. intros c' Hc'.
    apply Hno. by apply list_elem_of_further.
Qed.

(** What [classify] does in each of its four cases. *)
Lemma classify_Pitch rest :
  classify ("Pitch_" +:+ rest) = pitch <$> Py.int (upto_underscore rest).
Proof.
  unfold classify.
  assert (Py.startswith ("Pitch_" +:+ rest) "Pitch_" = true) as ->
    by (apply startswith_app; eauto).
  assert (Py.startswith ("Pitch_" +:+ rest) "PitchDrum_" = false) as ->
    by reflexivity.
  rewrite split_second_Pitch. simpl. by destruct (Py.int _).
Qed.

Lemma classify_PitchDrum rest :
  classify ("PitchDrum_" +:+ rest) =
  drum_pitch <$> Py.int (upto_underscore rest).
Proof.
  unfold classify.
  assert (Py.startswith ("PitchDrum_" +:+ rest) "Pitch_" = false) as ->
    by reflexivity.
  assert (Py.startswith ("PitchDrum_" +:+ rest) "PitchDrum_" = true) as ->
    by (apply startswith_app; eauto).
  rewrite split_second_PitchDrum. simpl. by destruct (Py.int _).
Qed.

Lemma classify_Chord rest :
  classify ("Chord_" +:+ rest) = Some (chord (upto_underscore rest)).
Proof.
  unfold classify.
  assert (Py.startswith ("Chord_" +:+ rest) "Pitch_" = false) as ->
    by reflexivity.
  assert (Py.startswith ("Chord_" +:+ rest) "PitchDrum_" = false) as ->
    by reflexivity.
  assert (Py.startswith ("Chord_" +:+ rest) "Chord_" = true) as ->
    by (apply startswith_app; eauto).
  by rewrite split_second_Chord.
Qed.

Lemma classify_other token :
  Py.startswith token "Pitch_" = false →
  Py.startswith token "PitchDrum_" = false →
  Py.startswith token "Chord_" = false →
  classify token = Some other.
Proof. unfold classify. by intros -> -> ->. Qed.

(** ** The table [__init__] builds *)

Lemma build_token_to_info_app before rest tbl0 tbl :
  build_token_to_info (before ++ rest) tbl0 = Some tbl →
  ∃ tbl1, build_token_to_info before tbl0 = Some tbl1 ∧
          build_token_to_info rest tbl1 = Some tbl.
Proof.
  revert tbl0. induction before as [|[token idx] before IH]; intros tbl0; simpl.
  - eauto.
  - destruct (classify token) as [info|]; simpl; [apply IH | discriminate].
Qed.

Lemma build_token_to_info_other items tbl0 tbl (idx : Z) :
  build_token_to_info items tbl0 = Some tbl →
  idx ∉ items.*2 → tbl !! idx = tbl0 !! idx.
Proof.
  revert tbl0. induction items as [|[token idx'] items IH]; intros tbl0; simpl.
  - by intros [= <-].
  - destruct (classify token) as [info|]; simpl; [|discriminate].
    intros Hb Hnot. apply not_elem_of_cons in Hnot as [Hne Hnot].
    rewrite (IH _ Hb Hnot). by apply lookup_insert_ne.
Qed.

(** The entry of an id is the classification of the last token string
    that carries it. *)
Lemma build_token_to_info_last before token idx after tbl0 tbl :
  build_token_to_info (before ++ (token, idx) :: after) tbl0 = Some tbl →
  idx ∉ after.*2 →
  ∃ info, classify token = Some info ∧ tbl !! idx = Some info.
Proof.
  intros Hb Hnot.
  apply build_token_to_info_app in Hb as (tbl1 & _ & Hb). simpl in Hb.
  destruct (classify token) as [info|]; simpl in Hb; [|discriminate].
  exists info. split; [reflexivity|].
  rewrite (build_token_to_info_other _ _ _ _ Hb Hnot).
  apply lookup_insert_eq.
Qed.

(** C7.  For a vocabulary that [__init__] accepts and an entry
    [(token, idx)] of it whose id is not carried by a later entry (every
    entry, when ids are unique), the table entry of [idx] is the
    classification of [token]: ['pitch'] with the integer parsed from the
    suffix when [token] starts with ["Pitch_"] (and so not with
    ["PitchDrum_"]), ['drum_pitch'] with the integer parsed from the suffix
    when it starts with ["PitchDrum_"], ['chord'] with the part of the
    suffix up to the next underscore when it starts with ["Chord_"], and
    ['other'] otherwise.  The integer is parsed from the part of the suffix
    up to the next underscore, which is the whole suffix when the suffix
    has no underscore. *)
Theorem classifier_spec vocab_json range self before token idx after :
  __init__ vocab_json range = Some self →
  vocab_json = before ++ (token, idx) :: after →
  idx ∉ after.*2 →
  ∃ info,
    classify token = Some info ∧
    token_to_info self !! idx = Some info ∧
    (Py.startswith token "Pitch_" = true →
     Py.startswith token "PitchDrum_" = false →
     ∃ rest value,
       token = "Pitch_" +:+ rest ∧
       Py.int (upto_underscore rest) = Some value ∧
       ((∀ c, c ∈ list_ascii_of_string rest → c ≠ "_"%char) →
        Py.int rest = Some value) ∧
       info = pitch value) ∧
    (Py.startswith token "PitchDrum_" = true →
     ∃ rest value,
       token = "PitchDrum_" +:+ rest ∧
       Py.int (upto_underscore rest) = Some value ∧
       ((∀ c, c ∈ list_ascii_of_string rest → c ≠ "_"%char) →
        Py.int rest = Some value) ∧
       info = drum_pitch value) ∧
    (Py.startswith token "Chord_" = true →
     ∃ rest, token = "Chord_" +:+ rest ∧ info = chord (upto_underscore rest)) ∧
    (Py.startswith token "Pitch_" = false →
     Py.startswith token "PitchDrum_" = false →
     Py.startswith token "Chord_" = false →
     info = other).
Proof.
  intros Hinit Hvocab Hlast.
  destruct (init_fields _ _ _ Hinit) as (_ & _ & _ & _ & Hbuild & _).
  rewrite Hvocab in Hbuild.
  destruct (build_token_to_info_last _ _ _ _ _ _ Hbuild Hlast)
    as (info & Hclass & Htbl).
  exists info. split; [done|]. split; [done|]. split; [|split; [|split]].
  - intros Hp _. apply startswith_app in Hp as (rest & ->).
    rewrite classify_Pitch in Hclass.
    destruct (Py.int (upto_underscore rest)) as [value|] eqn:Hint;
      [|discriminate].
    injection Hclass as <-. exists rest, value.
    split; [done|]. split; [done|]. split; [|done].
    intros Hno. by rewrite upto_underscore_all in Hint.
  - intros Hp. apply startswith_app in Hp as (rest & ->).
    rewrite classify_PitchDrum in Hclass.
    destruct (Py.int (upto_underscore rest)) as [value|] eqn:Hint;
      [|discriminate].
    injection Hclass as <-. exists rest, value.
    split; [done|]. split; [done|]. split; [|done].
    intros Hno. by rewrite upto_underscore_all in Hint.
  - intros Hp. apply startswith_app in Hp as (rest & ->).
    rewrite classify_Chord in Hclass. injection Hclass as <-. eauto.
  - intros H1 H2 H3. rewrite classify_other in Hclass by done. congruence.
Qed.

Lemma classifier_spec_witness :
  __init__ edge_vocab (-5, 6) = Some edge_self ∧
  token_to_info edge_self !! 3 = Some (drum_pitch 36).
Proof.
  split; [vm_compute; reflexivity|].
  destruct (classifier_spec edge_vocab (-5, 6) edge_self
              [("Pitch_21", 0); ("Pitch_109", 1); ("Pitch_22", 2)]
              "PitchDrum_36" 3 [("Chord_maj", 4)])
    as (info & _ & Htbl & _ & Hdrum & _).
  - vm_compute; reflexivity.
  - reflexivity.
  - apply not_elem_of_cons. split; [discriminate | apply not_elem_of_nil].
  - destruct Hdrum as (rest & value & Htok & Hint & _ & ->); [reflexivity|].
    vm_compute in Htok. injection Htok as <-.
    vm_compute in Hint. injection Hint as <-. exact Htbl.
Defined.

(** ** Round trip *)

Lemma dict_get_elem_of (d : Dict) k v : dict_get d k = Some v → (k, v) ∈ d.
Proof.
  induction d as [|[k' v'] d IH]; simpl; [discriminate|].
  destruct (decide (k' = k)) as [->|_].
  - intros [= ->]. apply list_elem_of_here.
  - intros H. apply list_elem_of_further. auto.
Qed.

(** With unique ids, the table entry of the id of a key is the
    classification of that key. *)
Lemma token_to_info_of_key vocab_json range self name id :
  __init__ vocab_json range = Some self →
  NoDup vocab_json.*2 →
  dict_get vocab_json name = Some id →
  ∃ info, classify name = Some info ∧ token_to_info self !! id = Some info.
Proof.
  intros Hinit Hids Hget.
  destruct (init_fields _ _ _ Hinit) as (_ & _ & _ & _ & Hbuild & _).
  apply dict_get_elem_of, list_elem_of_split in Hget as (before & after & ->).
  apply (build_token_to_info_last _ _ _ _ _ _ Hbuild).
  rewrite fmap_app, fmap_cons in Hids.
  apply NoDup_app in Hids as (_ & _ & Hids).
  by apply NoDup_cons in Hids as [? _].
Qed.

(** The string the transposer builds for a pitch of the range classifies
    as that pitch. *)
Lemma classify_target n :
  21 ≤ n ≤ 109 → classify ("Pitch_" +:+ Py.str n) = Some (pitch n).
Proof.
  intros Hn. rewrite classify_Pitch.
  pose proof (pitch_range_forallb
    (λ n, match Py.int (upto_underscore (Py.str n)) with
          | Some m => m =? n
          | None => false
          end)) as H.
  specialize (H ltac:(vm_compute; reflexivity) n Hn). cbv beta in H.
  destruct (Py.int _) as [m|]; [|discriminate].
  apply Z.eqb_eq in H as ->. reflexivity.
Qed.

(** A token moved by [k] and then by [-k] is itself again. *)
Lemma transpose_token_back vocab_json range self k x y z :
  __init__ vocab_json range = Some self →
  NoDup vocab_json.*2 →
  (∀ i j value,
     token_to_info self !! i = Some (pitch value) →
     token_to_info self !! j = Some (pitch value) → i = j) →
  transpose_token self k x = Some y →
  transpose_token self (- k) y = Some z →
  z = x.
Proof.
  intros Hinit Hids Hinj Hxy Hyz.
  destruct (init_fields _ _ _ Hinit) as (Hv & _ & _ & _ & _ & Hmin & Hmax & _).
  assert (Hkey : ∀ n id, 21 ≤ n ≤ 109 →
            dict_get (vocab self) ("Pitch_" +:+ Py.str n) = Some id →
            token_to_info self !! id = Some (pitch n)).
  { intros n id Hn Hget. rewrite Hv in Hget.
    destruct (token_to_info_of_key _ _ _ _ _ Hinit Hids Hget)
      as (info & Hclass & Htbl).
    rewrite classify_target in Hclass by done. congruence. }
  rewrite transpose_token_eq, Hmin, Hmax in Hxy.
  rewrite transpose_token_eq, Hmin, Hmax in Hyz.
  destruct (token_to_info self !! x) as [[v| | |]|] eqn:Hx;
    try (injection Hxy as <-; rewrite Hx in Hyz; congruence).
  destruct (Z.ltb_spec (v + k) 21); [discriminate|].
  destruct (Z.gtb_spec (v + k) 109); [discriminate|]. cbn [orb] in Hxy.
  rewrite (Hkey (v + k) y) in Hyz by (done || lia).
  replace (v + k + - k) with v in Hyz by lia.
  destruct (Z.ltb_spec v 21); [discriminate|].
  destruct (Z.gtb_spec v 109); [discriminate|]. cbn [orb] in Hyz.
  apply (Hinj z x v); [|done]. apply Hkey; [lia | done].
Qed.

(** C4.  Under the vocabulary invariant (ids are unique, and each pitch
    value is the value of at most one id), if transposing [seq] by [k]
    gives [r] and transposing [r] by [-k] gives [r'], then [r'] is [seq]. *)
Theorem transpose_round_trip vocab_json range self seq k r r' :
  __init__ vocab_json range = Some self →
  NoDup vocab_json.*2 →
  (∀ i j value,
     token_to_info self !! i = Some (pitch value) →
     token_to_info self !! j = Some (pitch value) → i = j) →
  transpose_tokens self seq k = Some r →
  transpose_tokens self r (- k) = Some r' →
  r' = seq.
Proof.
  intros Hinit Hids Hinj Hfwd Hback.
  destruct (decide (k = 0)) as [->|Hk].
  - rewrite transpose_tokens_zero in Hfwd, Hback. congruence.
  - assert (Hk' : - k ≠ 0) by lia.
    pose proof (transpose_tokens_length _ _ _ _ Hfwd) as Hlen.
    pose proof (transpose_tokens_length _ _ _ _ Hback) as Hlen'.
    apply list_eq. intros i.
    destruct (seq !! i) as [x|] eqn:Hx.
    + destruct (transpose_tokens_lookup _ _ _ _ _ _ Hk Hfwd Hx)
        as (y & Hy & Hxy).
      destruct (transpose_tokens_lookup _ _ _ _ _ _ Hk' Hback Hy)
        as (z & Hz & Hyz).
      rewrite Hz. f_equal.
      by apply (transpose_token_back _ _ _ _ _ _ _ Hinit Hids Hinj Hxy Hyz).
    + apply lookup_ge_None in Hx. apply lookup_ge_None. lia.
Qed.

(** The table of [edge_self] gives each pitch value to one id only. *)
Lemma edge_self_pitch_ids i j value :
  token_to_info edge_self !! i = Some (pitch value) →
  token_to_info edge_self !! j = Some (pitch value) → i = j.
Proof.
  unfold edge_self, token_to_info. intros Hi Hj.
  repeat (apply lookup_insert_Some in Hi as [[<- Hi]|[_ Hi]];
          [try discriminate Hi; injection Hi as <- |]);
  try (rewrite lookup_empty in Hi; discriminate Hi);
  repeat (apply lookup_insert_Some in Hj as [[<- Hj]|[_ Hj]];
          [try discriminate Hj; try reflexivity |]);
  try (rewrite lookup_empty in Hj; discriminate Hj).
Qed.

Lemma transpose_round_trip_witness :
  __init__ edge_vocab (-5, 6) = Some edge_self ∧
  NoDup edge_vocab.*2 ∧
  transpose_tokens edge_self [3; 0; 4] 1 = Some [3; 2; 4] ∧
  transpose_tokens edge_self [3; 2; 4] (- 1) = Some [3; 0; 4] ∧
  [3; 0; 4] = [3; 0; 4].
Proof.
  assert (Hids : NoDup edge_vocab.*2)
    by (apply (bool_decide_unpack _); vm_compute; exact I).
  split; [vm_compute; reflexivity|]. split; [exact Hids|].
  split; [vm_compute; reflexivity|]. split; [vm_compute; reflexivity|].
  apply (transpose_round_trip edge_vocab (-5, 6) edge_self
           [3; 0; 4] 1 [3; 2; 4] [3; 0; 4]).
  - vm_compute; reflexivity.
  - exact Hids.
  - exact edge_self_pitch_ids.
  - vm_compute; reflexivity.
  - vm_compute; reflexivity.
Defined.

(** Unique ids alone do not give the round trip: two different strings
    may parse to the same pitch value. *)
Lemma round_trip_needs_one_id_per_pitch :
  __init__ padded_vocab (-5, 6) = Some padded_self ∧
  NoDup padded_vocab.*2 ∧
  transpose_tokens padded_self [0] 1 = Some [2] ∧
  transpose_tokens padded_self [2] (- 1) = Some [1].
Proof.
  split; [vm_compute; reflexivity|].
  split; [apply (bool_decide_unpack _); vm_compute; exact I|].
  split; vm_compute; reflexivity.
Qed.

(** ** The batch augmenter *)

Lemma augment_loop_omap self tokens optimal values results :
  augment_loop self tokens optimal values results =
  results ++ omap (attempt self tokens optimal) values.
Proof.
  revert results. induction values as [|d values IH]; intros results; simpl.
  - by rewrite app_nil_r.
  - unfold attempt at 1.
    destruct (transpose_tokens self tokens (optimal + d)) as [out|]; simpl;
      rewrite IH; [|done].
    by rewrite <- app_assoc.
Qed.

Lemma augment_sequence_omap self tokens :
  augment_sequence self tokens =
  omap (attempt self tokens (find_optimal_transpose self tokens))
       (transpose_values self).
Proof. unfold augment_sequence. by rewrite augment_loop_omap. Qed.

(** The configured offsets of the entries, in order, are picked from the
    configured offsets without reordering. *)
Lemma attempt_base_sublist self tokens optimal values :
  (λ entry : Z * list Z, entry.1 - optimal) <$>
    omap (attempt self tokens optimal) values `sublist_of` values.
Proof.
  induction values as [|d values IH]; simpl; [constructor|].
  unfold attempt at 1.
  destruct (transpose_tokens self tokens (optimal + d)) as [out|]; simpl.
  - replace (optimal + d - optimal) with d by lia. by apply sublist_skip.
  - by apply sublist_cons.
Qed.

Lemma attempt_actual self tokens optimal values :
  (omap (attempt self tokens optimal) values).*1 =
  Z.add optimal <$>
    ((λ entry : Z * list Z, entry.1 - optimal) <$>
       omap (attempt self tokens optimal) values).
Proof.
  rewrite <- list_fmap_compose. apply list_fmap_ext.
  intros _ [actual out] _. simpl. lia.
Qed.

Lemma StronglySorted_sublist {A} (R : relation A) l1 l2 :
  l1 `sublist_of` l2 → StronglySorted R l2 → StronglySorted R l1.
Proof.
  induction 1 as [|x l1 l2 Hsub IH|x l1 l2 Hsub IH]; intros Hs.
  - constructor.
  - apply StronglySorted_inv in Hs as [Hs Hall]. constructor; [auto|].
    rewrite Forall_forall in Hall |- *. intros y Hy.
    apply Hall. by eapply elem_of_sublist.
  - apply StronglySorted_inv in Hs as [Hs _]. auto.
Qed.

Lemma StronglySorted_seqZ m n : StronglySorted Z.lt (seqZ m n).
Proof.
  destruct (Z.le_gt_cases n 0) as [Hn|Hn].
  { rewrite seqZ_nil by done. constructor. }
  rewrite <- (Z2Nat.id n) by lia. generalize (Z.to_nat n) as k. clear.
  intros k. revert m. induction k as [|k IH]; intros m.
  - constructor.
  - rewrite seqZ_cons by lia. constructor.
    + replace (Z.pred (Z.of_nat (S k))) with (Z.of_nat k) by lia. apply IH.
    + apply Forall_seqZ. intros i Hi. lia.
Qed.

(** C6.  [augment_sequence] computes the centring offset [optimal] and
    walks the configured offsets [d] in order, keeping
    [(optimal + d, result)] where [transpose_tokens] succeeds at
    [optimal + d] and nothing where it fails.  The configured offsets of the
    entries form a subsequence of the configured list (order kept), no
    actual offset occurs twice, there are at most
    [len(transpose_values)] entries, and every entry [(actual, result)]
    has [actual - optimal] among the configured offsets and [result] the
    transposition by [actual]. *)
Theorem augment_sequence_spec vocab_json range self tokens :
  __init__ vocab_json range = Some self →
  let optimal := find_optimal_transpose self tokens in
  let results := augment_sequence self tokens in
  results = omap (attempt self tokens optimal) (transpose_values self) ∧
  (λ entry : Z * list Z, entry.1 - optimal) <$> results
    `sublist_of` transpose_values self ∧
  NoDup results.*1 ∧
  (length results ≤ length (transpose_values self))%nat ∧
  (length results ≤ num_augmentations self)%nat ∧
  ∀ actual transposed,
    (actual, transposed) ∈ results →
    actual - optimal ∈ transpose_values self ∧
    transpose_tokens self tokens actual = Some transposed.
Proof.
  intros Hinit optimal results.
  destruct (init_fields _ _ _ Hinit) as (_ & _ & Hvals & Hnum & _).
  assert (Hres : results =
    omap (attempt self tokens optimal) (transpose_values self))
    by apply augment_sequence_omap.
  assert (Hsub : (λ entry : Z * list Z, entry.1 - optimal) <$> results
                   `sublist_of` transpose_values self).
  { rewrite Hres. apply attempt_base_sublist. }
  assert (Hlen : (length results ≤ length (transpose_values self))%nat).
  { apply sublist_length in Hsub. by rewrite length_fmap in Hsub. }
  split; [done|]. split; [done|]. split; [|split; [done|split]].
  - rewrite Hres, attempt_actual, <- Hres.
    assert (Inj (=) (=) (Z.add optimal)) by (intros a b ?; lia).
    apply (NoDup_fmap_2 _). eapply sublist_NoDup; [|exact Hsub].
    rewrite Hvals. apply NoDup_seqZ.
  - by rewrite Hnum.
  - intros actual transposed Hin. rewrite Hres in Hin.
    apply list_elem_of_omap in Hin as (d & Hd & Hatt).
    unfold attempt in Hatt.
    destruct (transpose_tokens self tokens (optimal + d)) as [out|] eqn:Hrun;
      [|discriminate].
    injection Hatt as <- <-.
    replace (optimal + d - optimal) with d by lia. done.
Qed.

Lemma augment_sequence_spec_witness :
  __init__ mid_vocab (-1, 2) = Some mid_self ∧
  augment_sequence mid_self [3; 0] =
    [(-1, [3; 2]); (0, [3; 0]); (1, [3; 1])] ∧
  NoDup (augment_sequence mid_self [3; 0]).*1 ∧
  (length (augment_sequence mid_self [3; 0]%Z) ≤ 4)%nat.
Proof.
  split; [vm_compute; reflexivity|].
  split; [vm_compute; reflexivity|].
  destruct (augment_sequence_spec mid_vocab (-1, 2) mid_self [3; 0])
    as (_ & _ & Hnodup & _ & Hlen & _); [vm_compute; reflexivity|].
  split; [exact Hnodup | exact Hlen].
Defined.

(** ** The configured offsets *)

(** C10.  For a range [(low, high)] with [low <= high], the configured
    offsets are [low, low + 1, ..., high]: there are [high - low + 1] of
    them, the one at position [i] is [low + i], and they increase
    strictly; so the actual offsets of the entries [augment_sequence]
    returns increase strictly too. *)
Theorem offsets_consecutive vocab_json low high self :
  __init__ vocab_json (low, high) = Some self →
  low ≤ high →
  length (transpose_values self) = Z.to_nat (high - low + 1) ∧
  (∀ i : nat, (i < length (transpose_values self))%nat →
     transpose_values self !! i = Some (low + Z.of_nat i)) ∧
  (∀ d, d ∈ transpose_values self ↔ low ≤ d ≤ high) ∧
  StronglySorted Z.lt (transpose_values self) ∧
  ∀ tokens, StronglySorted Z.lt (augment_sequence self tokens).*1.
Proof.
  intros Hinit Hle.
  destruct (init_fields _ _ _ Hinit) as (_ & _ & Hvals & _).
  simpl in Hvals. unfold Py.range in Hvals.
  assert (Hlen : length (transpose_values self) = Z.to_nat (high - low + 1)).
  { rewrite Hvals, length_seqZ. f_equal. lia. }
  assert (Hsorted : StronglySorted Z.lt (transpose_values self)).
  { rewrite Hvals. apply StronglySorted_seqZ. }
  split; [exact Hlen|]. split; [|split; [|split; [exact Hsorted|]]].
  - intros i Hi. rewrite Hvals. apply lookup_seqZ_lt. lia.
  - intros d. rewrite Hvals, elem_of_seqZ. lia.
  - intros tokens. rewrite augment_sequence_omap, attempt_actual.
    apply (StronglySorted_fmap _ Z.lt Z.lt); [intros x y; lia|].
    eapply StronglySorted_sublist; [apply attempt_base_sublist | exact Hsorted].
Qed.

Lemma offsets_consecutive_witness :
  __init__ mid_vocab (-1, 2) = Some mid_self ∧ -1 ≤ 2 ∧
  length (transpose_values mid_self) = 4%nat ∧
  StronglySorted Z.lt [-1; 0; 1].
Proof.
  split; [vm_compute; reflexivity|]. split; [lia|].
  destruct (offsets_consecutive mid_vocab (-1) 2 mid_self)
    as (Hlen & _ & _ & _ & Haug); [vm_compute; reflexivity | lia |].
  split; [exact Hlen | exact (Haug [3; 0])].
Defined.

(** * Further properties *)

(** ** Printing an integer and reading it back *)

Lemma isdigit_not_space c : Py.isdigit c = true → Py.isspace c = false.
Proof.
  unfold Py.isdigit, Py.isspace. intros H.
  apply andb_true_iff in H as [H1 H2].
  apply N.leb_le in H1. apply N.leb_le in H2.
  apply orb_false_iff. split; apply andb_false_iff.
  - right. apply N.leb_gt. lia.
  - right. apply N.leb_gt. lia.
Qed.

Lemma lstrip_id s :
  Forall (λ c, Py.isspace c = false) s → Py.lstrip s = s.
Proof. destruct 1 as [|c s Hc _]; simpl; [done|]. by rewrite Hc. Qed.

Lemma strip_id s :
  Forall (λ c, Py.isspace c = false) s → Py.strip s = s.
Proof.
  intros Hs. unfold Py.strip. rewrite (lstrip_id s Hs).
  rewrite lstrip_id by by apply List.Forall_rev.
  apply rev_involutive.
Qed.

Lemma uint_chars_digits d :
  Forall (λ c, Py.isdigit c = true)
    (list_ascii_of_string (NilEmpty.string_of_uint d)).
Proof. induction d; simpl; constructor; done. Qed.

Lemma digits_uint_pos d : ∀ acc b,
  d ≠ Decimal.Nil ∨ b = true →
  Py.digits (list_ascii_of_string (NilEmpty.string_of_uint d)) (Z.pos acc) b =
  Some (Z.pos (Pos.of_uint_acc d acc)).
Proof.
  induction d as [|d IH|d IH|d IH|d IH|d IH|d IH|d IH|d IH|d IH|d IH];
    intros acc b Hb;
    [destruct Hb as [?| ->]; done|..];
    simpl; rewrite <- (IH _ true) by (by right);
    f_equal; unfold Py.digit_value; simpl; lia.
Qed.

Lemma digits_uint_zero d : ∀ b,
  d ≠ Decimal.Nil ∨ b = true →
  Py.digits (list_ascii_of_string (NilEmpty.string_of_uint d)) 0 b =
  Some (Z.of_uint d).
Proof.
  unfold Z.of_uint.
  induction d as [|d IH|d IH|d IH|d IH|d IH|d IH|d IH|d IH|d IH|d IH];
    intros b Hb;
    [destruct Hb as [?| ->]; done | simpl; apply IH; by right | ..];
    simpl; apply (digits_uint_pos d _ true); by right.
Qed.

(** [int] on a string of digits, and on one with a minus sign in front. *)
Lemma py_int_digits s :
  list_ascii_of_string s ≠ [] →
  Forall (λ c, Py.isdigit c = true) (list_ascii_of_string s) →
  Py.int s = Py.digits (list_ascii_of_string s) 0 false.
Proof.
  intros Hne Hall. unfold Py.int.
  rewrite strip_id
    by (eapply Forall_impl; [exact Hall | apply isdigit_not_space]).
  destruct Hall as [|c rest Hc _]; [done|].
  destruct (Ascii.eqb_spec c "-") as [->|_]; [discriminate Hc|].
  destruct (Ascii.eqb_spec c "+") as [->|_]; [discriminate Hc|].
  reflexivity.
Qed.

Lemma py_int_minus s :
  Forall (λ c, Py.isdigit c = true) (list_ascii_of_string s) →
  Py.int (String "-" s) = Z.opp <$> Py.digits (list_ascii_of_string s) 0 false.
Proof.
  intros Hall. unfold Py.int.
  change (list_ascii_of_string (String "-" s))
    with ("-"%char :: list_ascii_of_string s).
  rewrite strip_id; [reflexivity|].
  constructor; [reflexivity|].
  eapply Forall_impl; [exact Hall | apply isdigit_not_space].
Qed.

Lemma py_int_uint d :
  Py.int (NilZero.string_of_uint d) = Some (Z.of_uint d) ∧
  Py.int (String "-" (NilZero.string_of_uint d)) = Some (- Z.of_uint d).
Proof.
  destruct d; [split; reflexivity|..];
    (split;
     [rewrite py_int_digits;
      [apply digits_uint_zero; by left | discriminate | apply uint_chars_digits]
     |rewrite py_int_minus by apply uint_chars_digits;
      unfold NilZero.string_of_uint;
      rewrite digits_uint_zero by (by left); reflexivity]).
Qed.

Lemma py_int_str n : Py.int (Py.str n) = Some n.
Proof.
  unfold Py.str. rewrite <- (DecimalZ.of_to n) at 2.
  destruct (Z.to_int n) as [d|d]; apply py_int_uint.
Qed.

Lemma str_chars n :
  Forall (λ c, Py.isdigit c = true ∨ c = "-"%char)
    (list_ascii_of_string (Py.str n)).
Proof.
  assert (Hd : ∀ d, Forall (λ c, Py.isdigit c = true ∨ c = "-"%char)
             (list_ascii_of_string (NilZero.string_of_uint d))).
  { intros d. eapply Forall_impl with (P := λ c, Py.isdigit c = true);
      [|by left].
    destruct d; try apply uint_chars_digits. by repeat constructor. }
  unfold Py.str. destruct (Z.to_int n) as [d|d]; simpl; [apply Hd|].
  constructor; [by right | apply Hd].
Qed.

Lemma upto_underscore_str n : upto_underscore (Py.str n) = Py.str n.
Proof.
  apply upto_underscore_all. intros c Hc.
  pose proof (str_chars n) as Hall. rewrite Forall_forall in Hall.
  destruct (Hall c Hc) as [Hd| ->]; [|discriminate].
  intros ->. discriminate Hd.
Qed.

Lemma classify_pitch_name n :
  classify ("Pitch_" +:+ Py.str n) = Some (pitch n).
Proof. by rewrite classify_Pitch, upto_underscore_str, py_int_str. Qed.

(** X3.  The name the transposer builds for a pitch is read back by the
    classifier as that pitch, for every integer: [int] undoes [str], and
    the strings ["Pitch_{n}"] and ["PitchDrum_{n}"] classify as pitch [n]
    and drum pitch [n]. *)
Theorem pitch_name_round_trip n :
  Py.int (Py.str n) = Some n ∧
  classify ("Pitch_" +:+ Py.str n) = Some (pitch n) ∧
  classify ("PitchDrum_" +:+ Py.str n) = Some (drum_pitch n).
Proof.
  split; [apply py_int_str|]. split.
  - apply classify_pitch_name.
  - by rewrite classify_PitchDrum, upto_underscore_str, py_int_str.
Qed.

Lemma py_str_inj a b : Py.str a = Py.str b → a = b.
Proof.
  intros H. pose proof (py_int_str a) as Ha.
  rewrite H, py_int_str in Ha. congruence.
Qed.

(** ** Output file names *)

Lemma chars_app s1 s2 :
  list_ascii_of_string (s1 +:+ s2) =
  list_ascii_of_string s1 ++ list_ascii_of_string s2.
Proof. induction s1 as [|c s1 IH]; simpl; [done|]. by rewrite IH. Qed.

Lemma chars_inj s1 s2 :
  list_ascii_of_string s1 = list_ascii_of_string s2 → s1 = s2.
Proof.
  intros H. rewrite <- (string_of_list_ascii_of_string s1),
    <- (string_of_list_ascii_of_string s2). by rewrite H.
Qed.

Lemma format_plus_d_inj a b :
  Py.format_plus_d a = Py.format_plus_d b → a = b.
Proof.
  assert (Hneg : ∀ p, ∃ s, Py.str (Z.neg p) = String "-" s).
  { intros p. unfold Py.str. simpl. eauto. }
  unfold Py.format_plus_d.
  destruct (Z.ltb_spec a 0) as [Ha|Ha], (Z.ltb_spec b 0) as [Hb|Hb].
  - apply py_str_inj.
  - destruct a as [|p|p]; try lia. destruct (Hneg p) as [s ->]. discriminate.
  - destruct b as [|p|p]; try lia. destruct (Hneg p) as [s ->]. discriminate.
  - intros [= H]. by apply py_str_inj.
Qed.

(** X15.  Different offsets are written to different files. *)
Theorem filename_distinct a b :
  a ≠ b → Jsonl.filename a ≠ Jsonl.filename b.
Proof.
  intros Hne H. apply Hne, format_plus_d_inj, chars_inj.
  unfold Jsonl.filename in H. apply (f_equal list_ascii_of_string) in H.
  rewrite !chars_app in H.
  apply app_inv_head in H. by apply app_inv_tail in H.
Qed.

Lemma filename_distinct_witness :
  -5 ≠ 6 ∧
  Jsonl.filename (-5) = "transpose_-5.jsonl" ∧
  Jsonl.filename 6 = "transpose_+6.jsonl" ∧
  Jsonl.filename 0 = "transpose_+0.jsonl" ∧
  Jsonl.filename (-5) ≠ Jsonl.filename 6.
Proof.
  split; [lia|]. repeat (split; [vm_compute; reflexivity|]).
  apply (filename_distinct (-5) 6). lia.
Defined.

(** ** When [__init__] fails, and what its table holds *)




Lemma init_rejects_examples :
  __init__ [("Bar_None", 0); ("Pitch_", 1)] (-5, 6) = None ∧
  __init__ [("PitchDrum_x", 0)] (-5, 6) = None ∧
  __init__ [("Pitch_6.5", 0)] (-5, 6) = None ∧
  is_Some (__init__ [("Chord_", 0); ("Pitchfork", 1); ("Pitch_ 7_x", 2)]
             (-5, 6)).
Proof. repeat split; vm_compute; eauto. Qed.

Lemma last_entry_of_id (items : Dict) (idx : Z) :
  idx ∈ items.*2 →
  ∃ before token after,
    items = before ++ (token, idx) :: after ∧ idx ∉ after.*2.
Proof.
  intros Hin. apply list_elem_of_split_r in Hin as (k1 & k2 & Hsplit & Hnot).
  apply fmap_app_inv in Hsplit as (before & rest & -> & Hrest & ->).
  symmetry in Hrest.
  apply fmap_cons_inv in Hrest as ([token idx'] & after & Hidx & -> & ->).
  simpl in Hidx. subst idx'. eauto.
Qed.

(** X2.  The table [__init__] builds has an entry exactly for the ids of the
    vocabulary, and each entry is the classification of a vocabulary
    string that carries that id. *)
Theorem table_entries vocab_json range self idx :
  __init__ vocab_json range = Some self →
  (is_Some (token_to_info self !! idx) ↔ idx ∈ vocab_json.*2) ∧
  (∀ info, token_to_info self !! idx = Some info →
     ∃ token, (token, idx) ∈ vocab_json ∧ classify token = Some info).
Proof.
  intros Hinit.
  destruct (init_fields _ _ _ Hinit) as (_ & _ & _ & _ & Hbuild & _).
  destruct (decide (idx ∈ vocab_json.*2)) as [Hin|Hnot].
  - destruct (last_entry_of_id _ _ Hin) as (before & token & after & Heq & Hlast).
    rewrite Heq in Hbuild.
    destruct (build_token_to_info_last _ _ _ _ _ _ Hbuild Hlast)
      as (info & Hclass & Htbl).
    split; [by rewrite Htbl|]. intros info' Hinfo'. exists token.
    split; [|congruence]. rewrite Heq. apply elem_of_app. right.
    apply list_elem_of_here.
  - rewrite (build_token_to_info_other _ _ _ _ Hbuild Hnot), lookup_empty.
    split; [split; [by intros [? [=]] | done] | discriminate].
Qed.

Lemma table_entries_witness :
  __init__ edge_vocab (-5, 6) = Some edge_self ∧
  token_to_info edge_self !! 7 = None ∧
  is_Some (token_to_info edge_self !! 3).
Proof.
  split; [vm_compute; reflexivity|].
  destruct (table_entries edge_vocab (-5, 6) edge_self 7) as [Hdom7 _];
    [vm_compute; reflexivity|].
  destruct (table_entries edge_vocab (-5, 6) edge_self 3) as [Hdom3 _];
    [vm_compute; reflexivity|].
  split.
  - apply eq_None_not_Some. intros Hsome. apply Hdom7 in Hsome.
    vm_compute in Hsome. by repeat (apply elem_of_cons in Hsome as [?|Hsome];
      [discriminate|]); apply elem_of_nil in Hsome.
  - apply Hdom3. vm_compute. in_seq.
Defined.

(** ** A range given in the wrong order *)

(** X4.  When [high < low] the list of configured offsets is empty, so the
    augmenter is built without complaint and [augment_sequence] returns no
    variant for any sequence. *)
Theorem reversed_range_no_offsets vocab_json low high self :
  __init__ vocab_json (low, high) = Some self →
  high < low →
  transpose_values self = [] ∧
  num_augmentations self = 0%nat ∧
  ∀ tokens, augment_sequence self tokens = [].
Proof.
  intros Hinit Hlt.
  destruct (init_fields _ _ _ Hinit) as (_ & _ & Hvals & Hnum & _).
  simpl in Hvals. unfold Py.range in Hvals. rewrite seqZ_nil in Hvals by lia.
  split; [done|]. split; [by rewrite Hnum, Hvals|].
  intros tokens. unfold augment_sequence. by rewrite Hvals.
Qed.

Lemma reversed_range_no_offsets_witness :
  __init__ spec_vocab (1, -1) = Some reversed_self ∧ -1 < 1 ∧
  augment_sequence reversed_self [4; 0; 3] = [].
Proof.
  split; [vm_compute; reflexivity|]. split; [lia|].
  destruct (reversed_range_no_offsets spec_vocab 1 (-1) reversed_self)
    as (_ & _ & Haug); [vm_compute; reflexivity | lia |].
  apply Haug.
Defined.

(** ** More on the centring offset *)

(** X5.  When the pitch values of the sequence lie at most 88 apart, neither
    clamp fires: the offset is [65 - (current_min + current_max) // 2], and
    the shifted extremes have their centre exactly at [mid_pitch]. *)
Theorem optimal_transpose_centres vocab_json range self tokens
    current_min current_max :
  __init__ vocab_json range = Some self →
  has_pitch self tokens current_min →
  (∀ v, has_pitch self tokens v → current_min ≤ v) →
  has_pitch self tokens current_max →
  (∀ v, has_pitch self tokens v → v ≤ current_max) →
  current_max - current_min ≤ 88 →
  let optimal := find_optimal_transpose self tokens in
  optimal = 65 - (current_min + current_max) / 2 ∧
  ((current_min + optimal) + (current_max + optimal)) / 2 = 65.
Proof.
  intros Hinit Hmn Hmn_le Hmx Hmx_ge Hspan optimal.
  destruct (init_fields _ _ _ Hinit) as (_ & _ & _ & _ & _ & Hmin & Hmax & Hmid).
  assert (Hopt : optimal = 65 - (current_min + current_max) / 2).
  { unfold optimal.
    rewrite (find_optimal_transpose_eq self tokens current_min current_max)
      by done.
    rewrite Hmin, Hmax, Hmid. cbv zeta.
    pose proof (Z.div_mod (current_min + current_max) 2 ltac:(lia)) as Hdm.
    pose proof (Z.mod_pos_bound (current_min + current_max) 2 ltac:(lia)).
    pose proof (Hmn_le _ Hmx).
    destruct (Z.ltb_spec (current_min + (65 - (current_min + current_max) / 2))
                21); [lia|].
    destruct (Z.gtb_spec (current_max + (65 - (current_min + current_max) / 2))
                109); [lia | reflexivity]. }
  split; [exact Hopt|].
  replace (current_min + optimal + (current_max + optimal))
    with (current_min + current_max + optimal * 2) by lia.
  rewrite Z.div_add by lia. lia.
Qed.

Lemma optimal_transpose_centres_witness :
  __init__ edge_vocab (-5, 6) = Some edge_self ∧
  find_optimal_transpose edge_self [3; 0; 2; 4] = 65 - (21 + 22) / 2 ∧
  ((21 + find_optimal_transpose edge_self [3; 0; 2; 4]) +
   (22 + find_optimal_transpose edge_self [3; 0; 2; 4])) / 2 = 65.
Proof.
  split; [vm_compute; reflexivity|].
  apply (optimal_transpose_centres edge_vocab (-5, 6) edge_self
           [3; 0; 2; 4] 21 22).
  - vm_compute; reflexivity.
  - exists 0. split; [in_seq | reflexivity].
  - intros v Hv. pitches_of_seq Hv; lia.
  - exists 2. split; [in_seq | reflexivity].
  - intros v Hv. pitches_of_seq Hv; lia.
  - lia.
Defined.

(** X6.  The offset depends on the sequence only through the set of its pitch
    values: reordering the tokens, repeating them, or adding and removing
    tokens that are not classified ['pitch'] does not change it. *)
Theorem find_optimal_transpose_pitch_set self tokens1 tokens2 :
  (∀ v, has_pitch self tokens1 v ↔ has_pitch self tokens2 v) →
  find_optimal_transpose self tokens1 = find_optimal_transpose self tokens2.
Proof.
  intros Hsame.
  destruct (collect_pitches self tokens1 []) as [|p ps] eqn:Hcol.
  - assert (Hno : ∀ v, ¬ has_pitch self tokens1 v).
    { intros v Hv. apply elem_of_collect_pitches in Hv.
      rewrite Hcol in Hv. by apply elem_of_nil in Hv. }
    rewrite !find_optimal_transpose_no_pitch; [done | | done].
    intros v Hv. by apply (Hno v), Hsame.
  - assert (Hp : has_pitch self tokens1 p).
    { apply elem_of_collect_pitches. rewrite Hcol. apply list_elem_of_here. }
    destruct (has_pitch_extremes self tokens1 p Hp)
      as (mn & mx & Hmn & Hmn_le & Hmx & Hmx_ge).
    rewrite (find_optimal_transpose_eq self tokens1 mn mx) by done.
    rewrite (find_optimal_transpose_eq self tokens2 mn mx); [done|..].
    + by apply Hsame.
    + intros v Hv. by apply Hmn_le, Hsame.
    + by apply Hsame.
    + intros v Hv. by apply Hmx_ge, Hsame.
Qed.

Lemma find_optimal_transpose_pitch_set_witness :
  (∀ v, has_pitch edge_self [3; 0; 2; 4] v ↔ has_pitch edge_self [2; 2; 0] v) ∧
  find_optimal_transpose edge_self [3; 0; 2; 4] =
  find_optimal_transpose edge_self [2; 2; 0].
Proof.
  assert (Hsame : ∀ v, has_pitch edge_self [3; 0; 2; 4] v ↔
                       has_pitch edge_self [2; 2; 0] v).
  { intros v. split; intros Hv; pitches_of_seq Hv.
    - exists 0. split; [in_seq | reflexivity].
    - exists 2. split; [in_seq | reflexivity].
    - exists 2. split; [in_seq | reflexivity].
    - exists 2. split; [in_seq | reflexivity].
    - exists 0. split; [in_seq | reflexivity]. }
  split; [exact Hsame|].
  apply (find_optimal_transpose_pitch_set edge_self _ _ Hsame).
Defined.

(** ** More on the transposer *)

Lemma mapM_option_app {A B} (f : A → option B) l1 l2 :
  mapM f (l1 ++ l2) = k1 ← mapM f l1; k2 ← mapM f l2; Some (k1 ++ k2).
Proof.
  induction l1 as [|x l1 IH]; simpl.
  - by destruct (mapM f l2).
  - change (mapM f (x :: l1 ++ l2)) with
      (y ← f x; k ← mapM f (l1 ++ l2); Some (y :: k)).
    change (mapM f (x :: l1)) with (y ← f x; k ← mapM f l1; Some (y :: k)).
    rewrite IH. destruct (f x); simpl; [|done].
    destruct (mapM f l1); simpl; [|done]. by destruct (mapM f l2).
Qed.

(** X9.  Transposing a concatenation is transposing its two parts: it succeeds
    exactly when both do, and then gives the two results one after the
    other. *)
Theorem transpose_tokens_app self tokens1 tokens2 steps :
  transpose_tokens self (tokens1 ++ tokens2) steps =
  result1 ← transpose_tokens self tokens1 steps;
  result2 ← transpose_tokens self tokens2 steps;
  Some (result1 ++ result2).
Proof.
  destruct (decide (steps = 0)) as [->|Hs]; [reflexivity|].
  rewrite !transpose_tokens_mapM by done. apply mapM_option_app.
Qed.

Lemma transpose_tokens_unchanged self tokens steps :
  (∀ value, ¬ has_pitch self tokens value) →
  transpose_tokens self tokens steps = Some tokens.
Proof.
  intros Hno. destruct (decide (steps = 0)) as [->|Hs]; [reflexivity|].
  rewrite transpose_tokens_mapM by done. apply mapM_Some.
  apply Forall2_same_length_lookup. split; [done|].
  intros i x y Hx Hy. rewrite Hx in Hy. injection Hy as <-.
  apply transpose_token_other. intros (v & Hv).
  apply (Hno v). exists x. split; [by eapply list_elem_of_lookup_2 | done].
Qed.

(** X10.  A sequence without pitch tokens is returned unchanged at every number
    of steps: the transposer cannot fail on it. *)
Theorem transpose_tokens_no_pitch self tokens steps :
  (∀ value, ¬ has_pitch self tokens value) →
  transpose_tokens self tokens steps = Some tokens.
Proof. apply transpose_tokens_unchanged. Qed.

Lemma transpose_tokens_no_pitch_witness :
  (∀ value, ¬ has_pitch edge_self [3; 4; 9] value) ∧
  transpose_tokens edge_self [3; 4; 9] 200 = Some [3; 4; 9].
Proof.
  assert (Hno : ∀ value, ¬ has_pitch edge_self [3; 4; 9] value).
  { intros v Hv. pitches_of_seq Hv. }
  split; [exact Hno|].
  apply (transpose_tokens_no_pitch edge_self [3; 4; 9] 200 Hno).
Defined.

(** With unique ids, the id found under the name of a pitch of the range
    is classified as that pitch. *)
Lemma pitch_of_target vocab_json range self n id :
  __init__ vocab_json range = Some self →
  NoDup vocab_json.*2 →
  dict_get vocab_json ("Pitch_" +:+ Py.str n) = Some id →
  token_to_info self !! id = Some (pitch n).
Proof.
  intros Hinit Hids Hget.
  destruct (token_to_info_of_key _ _ _ _ _ Hinit Hids Hget)
    as (info & Hclass & Htbl).
  rewrite classify_pitch_name in Hclass. congruence.
Qed.

(** A pitch token that the loop accepts is replaced by the id found under
    the name of the shifted pitch, and with unique ids that id is classified
    as the shifted pitch. *)
Lemma transpose_token_pitch vocab_json range self steps x y value :
  __init__ vocab_json range = Some self →
  NoDup vocab_json.*2 →
  token_to_info self !! x = Some (pitch value) →
  transpose_token self steps x = Some y →
  21 ≤ value + steps ≤ 109 ∧
  dict_get vocab_json ("Pitch_" +:+ Py.str (value + steps)) = Some y ∧
  token_to_info self !! y = Some (pitch (value + steps)).
Proof.
  intros Hinit Hids Hx Hxy.
  destruct (init_fields _ _ _ Hinit) as (Hv & _ & _ & _ & _ & Hmin & Hmax & _).
  rewrite transpose_token_eq, Hx, Hmin, Hmax, Hv in Hxy.
  destruct (Z.ltb_spec (value + steps) 21); [discriminate|].
  destruct (Z.gtb_spec (value + steps) 109); [discriminate|].
  cbn [orb] in Hxy. split; [lia|]. split; [done|].
  by eapply pitch_of_target.
Qed.

(** X11.  With unique ids, a successful transposition really shifts the pitches:
    where the input has a token of pitch [value], the output has a token of
    pitch [value + steps], which lies within [21, 109] unless [steps] is
    zero. *)
Theorem transpose_shifts_pitch vocab_json range self tokens steps result
    i token value :
  __init__ vocab_json range = Some self →
  NoDup vocab_json.*2 →
  transpose_tokens self tokens steps = Some result →
  tokens !! i = Some token →
  token_to_info self !! token = Some (pitch value) →
  ∃ new_token,
    result !! i = Some new_token ∧
    token_to_info self !! new_token = Some (pitch (value + steps)) ∧
    (steps ≠ 0 →
     21 ≤ value + steps ≤ 109 ∧
     dict_get vocab_json ("Pitch_" +:+ Py.str (value + steps)) =
       Some new_token).
Proof.
  intros Hinit Hids Hrun Hi Hinfo.
  destruct (decide (steps = 0)) as [->|Hs].
  - rewrite transpose_tokens_zero in Hrun. injection Hrun as <-.
    exists token. rewrite Z.add_0_r. done.
  - destruct (transpose_tokens_lookup _ _ _ _ _ _ Hs Hrun Hi)
      as (y & Hy & Hxy).
    destruct (transpose_token_pitch _ _ _ _ _ _ _ Hinit Hids Hinfo Hxy)
      as (Hrange & Hget & Hnew).
    exists y. done.
Qed.

Lemma transpose_shifts_pitch_witness :
  __init__ edge_vocab (-5, 6) = Some edge_self ∧
  NoDup edge_vocab.*2 ∧
  transpose_tokens edge_self [3; 0; 4] 1 = Some [3; 2; 4] ∧
  token_to_info edge_self !! 2 = Some (pitch (21 + 1)).
Proof.
  assert (Hids : NoDup edge_vocab.*2)
    by (apply (bool_decide_unpack _); vm_compute; exact I).
  split; [vm_compute; reflexivity|]. split; [exact Hids|].
  split; [vm_compute; reflexivity|].
  destruct (transpose_shifts_pitch edge_vocab (-5, 6) edge_self
              [3; 0; 4] 1 [3; 2; 4] 1%nat 0 21)
    as (y & Hy & Hnew & _);
    [vm_compute; reflexivity | exact Hids | vm_compute; reflexivity
    | reflexivity | reflexivity |].
  injection Hy as <-. exact Hnew.
Defined.

(** The pitch values of a transposed sequence are those of the input,
    shifted. *)
Lemma has_pitch_transposed vocab_json range self tokens steps result w :
  __init__ vocab_json range = Some self →
  NoDup vocab_json.*2 →
  transpose_tokens self tokens steps = Some result →
  has_pitch self result w ↔
  ∃ value, has_pitch self tokens value ∧ w = value + steps.
Proof.
  intros Hinit Hids Hrun.
  destruct (decide (steps = 0)) as [->|Hs].
  { rewrite transpose_tokens_zero in Hrun. injection Hrun as <-. split.
    - intros Hw. exists w. split; [done | lia].
    - intros (v & Hv & ->). by rewrite Z.add_0_r. }
  pose proof (transpose_tokens_length _ _ _ _ Hrun) as Hlen. split.
  - intros (y & Hin & Hinfo).
    apply list_elem_of_lookup in Hin as (i & Hy).
    destruct (lookup_lt_is_Some_2 tokens i) as (x & Hx).
    { apply lookup_lt_Some in Hy. lia. }
    destruct (transpose_tokens_lookup _ _ _ _ _ _ Hs Hrun Hx)
      as (y' & Hy' & Hxy).
    assert (y' = y) as -> by congruence.
    destruct (token_to_info self !! x) as [[v| | |]|] eqn:Hinfo_x.
    + destruct (transpose_token_pitch _ _ _ _ _ _ _ Hinit Hids Hinfo_x Hxy)
        as (_ & _ & Hnew).
      exists v. split; [|congruence].
      exists x. split; [by eapply list_elem_of_lookup_2 | done].
    + rewrite transpose_token_eq, Hinfo_x in Hxy. congruence.
    + rewrite transpose_token_eq, Hinfo_x in Hxy. congruence.
    + rewrite transpose_token_eq, Hinfo_x in Hxy. congruence.
    + rewrite transpose_token_eq, Hinfo_x in Hxy. congruence.
  - intros (v & (x & Hin & Hinfo_x) & ->).
    apply list_elem_of_lookup in Hin as (i & Hx).
    destruct (transpose_tokens_lookup _ _ _ _ _ _ Hs Hrun Hx)
      as (y & Hy & Hxy).
    destruct (transpose_token_pitch _ _ _ _ _ _ _ Hinit Hids Hinfo_x Hxy)
      as (_ & _ & Hnew).
    exists y. split; [by eapply list_elem_of_lookup_2 | done].
Qed.

Lemma transpose_token_compose vocab_json range self a b x y z :
  __init__ vocab_json range = Some self →
  NoDup vocab_json.*2 →
  transpose_token self a x = Some y →
  transpose_token self b y = Some z →
  transpose_token self (a + b) x = Some z.
Proof.
  intros Hinit Hids Hxy Hyz.
  destruct (token_to_info self !! x) as [[v| | |]|] eqn:Hx.
  - destruct (transpose_token_pitch _ _ _ _ _ _ _ Hinit Hids Hx Hxy)
      as (_ & _ & Hy).
    rewrite transpose_token_eq, Hy in Hyz.
    rewrite transpose_token_eq, Hx. by rewrite Z.add_assoc.
  - rewrite transpose_token_eq, Hx in Hxy. injection Hxy as <-.
    rewrite transpose_token_eq, Hx in Hyz. by rewrite transpose_token_eq, Hx.
  - rewrite transpose_token_eq, Hx in Hxy. injection Hxy as <-.
    rewrite transpose_token_eq, Hx in Hyz. by rewrite transpose_token_eq, Hx.
  - rewrite transpose_token_eq, Hx in Hxy. injection Hxy as <-.
    rewrite transpose_token_eq, Hx in Hyz. by rewrite transpose_token_eq, Hx.
  - rewrite transpose_token_eq, Hx in Hxy. injection Hxy as <-.
    rewrite transpose_token_eq, Hx in Hyz. by rewrite transpose_token_eq, Hx.
Qed.

(** X12.  With unique ids, two successful transpositions in a row amount to one
    by the sum of the steps, as long as that sum is not zero. *)
Theorem transpose_tokens_compose vocab_json range self tokens a b
    result1 result2 :
  __init__ vocab_json range = Some self →
  NoDup vocab_json.*2 →
  a + b ≠ 0 →
  transpose_tokens self tokens a = Some result1 →
  transpose_tokens self result1 b = Some result2 →
  transpose_tokens self tokens (a + b) = Some result2.
Proof.
  intros Hinit Hids Hab H1 H2.
  destruct (decide (a = 0)) as [->|Ha].
  { rewrite transpose_tokens_zero in H1. injection H1 as <-.
    by rewrite Z.add_0_l. }
  destruct (decide (b = 0)) as [->|Hb].
  { rewrite transpose_tokens_zero in H2. injection H2 as <-.
    by rewrite Z.add_0_r. }
  pose proof (transpose_tokens_length _ _ _ _ H1) as Hlen1.
  pose proof (transpose_tokens_length _ _ _ _ H2) as Hlen2.
  rewrite transpose_tokens_mapM by done. apply mapM_Some.
  apply Forall2_same_length_lookup. split; [lia|].
  intros i x z Hx Hz.
  destruct (transpose_tokens_lookup _ _ _ _ _ _ Ha H1 Hx) as (y & Hy & Hxy).
  destruct (transpose_tokens_lookup _ _ _ _ _ _ Hb H2 Hy) as (z' & Hz' & Hyz).
  assert (z' = z) as -> by congruence.
  by eapply transpose_token_compose.
Qed.

Lemma transpose_tokens_compose_witness :
  __init__ mid_vocab (-1, 2) = Some mid_self ∧
  NoDup mid_vocab.*2 ∧ -1 + 2 ≠ 0 ∧
  transpose_tokens mid_self [3; 0] (-1) = Some [3; 2] ∧
  transpose_tokens mid_self [3; 2] 2 = Some [3; 1] ∧
  transpose_tokens mid_self [3; 0] (-1 + 2) = Some [3; 1].
Proof.
  assert (Hids : NoDup mid_vocab.*2)
    by (apply (bool_decide_unpack _); vm_compute; exact I).
  split; [vm_compute; reflexivity|]. split; [exact Hids|]. split; [lia|].
  split; [vm_compute; reflexivity|]. split; [vm_compute; reflexivity|].
  apply (transpose_tokens_compose mid_vocab (-1, 2) mid_self
           [3; 0] (-1) 2 [3; 2] [3; 1]);
    [vm_compute; reflexivity | exact Hids | lia
    | vm_compute; reflexivity | vm_compute; reflexivity].
Defined.

(** ** Sequences too wide for the range, and centring twice *)

Lemma augment_actual_NoDup vocab_json range self tokens :
  __init__ vocab_json range = Some self →
  NoDup (augment_sequence self tokens).*1.
Proof.
  intros Hinit.
  destruct (init_fields _ _ _ Hinit) as (_ & _ & Hvals & _).
  rewrite augment_sequence_omap, attempt_actual.
  set (optimal := find_optimal_transpose self tokens).
  assert (Inj (=) (=) (Z.add optimal)) by (intros a b ?; lia).
  apply (NoDup_fmap_2 _).
  eapply sublist_NoDup; [|apply attempt_base_sublist].
  rewrite Hvals. apply NoDup_seqZ.
Qed.

Lemma elem_of_augment_sequence self tokens actual transposed :
  (actual, transposed) ∈ augment_sequence self tokens ↔
  actual - find_optimal_transpose self tokens ∈ transpose_values self ∧
  transpose_tokens self tokens actual = Some transposed.
Proof.
  rewrite augment_sequence_omap, list_elem_of_omap. unfold attempt. split.
  - intros (d & Hd & Hatt).
    destruct (transpose_tokens _ _ (_ + d)) as [out|] eqn:Hrun; [|discriminate].
    injection Hatt as <- <-.
    replace (find_optimal_transpose self tokens + d -
             find_optimal_transpose self tokens) with d by lia. done.
  - intros [Hd Hrun].
    exists (actual - find_optimal_transpose self tokens). split; [done|].
    replace (find_optimal_transpose self tokens +
             (actual - find_optimal_transpose self tokens)) with actual by lia.
    by rewrite Hrun.
Qed.

(** X7.  A sequence with two pitches more than 88 apart cannot be transposed
    by any non-zero number of steps, so [augment_sequence] returns at most
    one variant for it, and that one is the unshifted sequence. *)
Theorem wide_span_only_identity vocab_json range self tokens low_pitch
    high_pitch :
  __init__ vocab_json range = Some self →
  has_pitch self tokens low_pitch →
  has_pitch self tokens high_pitch →
  88 < high_pitch - low_pitch →
  (∀ steps, steps ≠ 0 → transpose_tokens self tokens steps = None) ∧
  (∀ entry, entry ∈ augment_sequence self tokens → entry = (0, tokens)) ∧
  (length (augment_sequence self tokens) ≤ 1)%nat.
Proof.
  intros Hinit (tl & Hinl & Hl) (th & Hinh & Hh) Hspan.
  destruct (init_fields _ _ _ Hinit) as (_ & _ & _ & _ & _ & Hmin & Hmax & _).
  assert (Hfail : ∀ steps, steps ≠ 0 →
                    transpose_tokens self tokens steps = None).
  { intros steps Hs. apply transpose_tokens_None; [done|].
    rewrite Hmin, Hmax.
    destruct (Z.lt_ge_cases (low_pitch + steps) 21).
    - exists tl, low_pitch. auto.
    - exists th, high_pitch. split; [done|]. split; [done|]. right. left. lia. }
  assert (Hentry : ∀ entry, entry ∈ augment_sequence self tokens →
                     entry = (0, tokens)).
  { intros [actual transposed] Hin.
    apply elem_of_augment_sequence in Hin as [_ Hrun].
    destruct (decide (actual = 0)) as [->|Hne].
    - rewrite transpose_tokens_zero in Hrun. congruence.
    - rewrite Hfail in Hrun by done. discriminate. }
  split; [exact Hfail|]. split; [exact Hentry|].
  pose proof (augment_actual_NoDup _ _ _ tokens Hinit) as Hnodup.
  destruct (augment_sequence self tokens) as [|e1 [|e2 rest]]; simpl; [lia..|].
  rewrite (Hentry e1), (Hentry e2) in Hnodup
    by (rewrite !elem_of_cons; auto).
  simpl in Hnodup. apply NoDup_cons in Hnodup as [Hnot _].
  destruct Hnot. apply list_elem_of_here.
Qed.

Lemma wide_span_only_identity_witness :
  __init__ wide_vocab (-5, 6) = Some wide_self ∧
  88 < 120 - 10 ∧
  (∀ steps, steps ≠ 0 → transpose_tokens wide_self [0; 1] steps = None) ∧
  augment_sequence wide_self [0; 1] = [].
Proof.
  split; [vm_compute; reflexivity|]. split; [lia|].
  destruct (wide_span_only_identity wide_vocab (-5, 6) wide_self [0; 1] 10 120)
    as (Hfail & _ & _).
  - vm_compute; reflexivity.
  - exists 0. split; [in_seq | reflexivity].
  - exists 1. split; [in_seq | reflexivity].
  - lia.
  - split; [exact Hfail | vm_compute; reflexivity].
Defined.

(** X8.  With unique ids, centring is idempotent: when the pitch values lie at
    most 88 apart and the sequence can be transposed by its centring
    offset, the centring offset of the result is zero. *)
Theorem centring_idempotent vocab_json range self tokens result :
  __init__ vocab_json range = Some self →
  NoDup vocab_json.*2 →
  (∀ v w, has_pitch self tokens v → has_pitch self tokens w → w - v ≤ 88) →
  transpose_tokens self tokens (find_optimal_transpose self tokens) =
    Some result →
  find_optimal_transpose self result = 0.
Proof.
  intros Hinit Hids Hspan Hrun.
  destruct (init_fields _ _ _ Hinit) as (_ & _ & _ & _ & _ & Hmin & Hmax & Hmid).
  set (optimal := find_optimal_transpose self tokens) in *.
  pose proof (λ w, has_pitch_transposed _ _ _ _ _ _ w Hinit Hids Hrun)
    as Hshift.
  destruct (collect_pitches self tokens []) as [|p ps] eqn:Hcol.
  { apply find_optimal_transpose_no_pitch. intros w Hw.
    apply Hshift in Hw as (v & Hv & _).
    apply elem_of_collect_pitches in Hv. rewrite Hcol in Hv.
    by apply elem_of_nil in Hv. }
  assert (Hp : has_pitch self tokens p).
  { apply elem_of_collect_pitches. rewrite Hcol. apply list_elem_of_here. }
  destruct (has_pitch_extremes self tokens p Hp)
    as (mn & mx & Hmn & Hmn_le & Hmx & Hmx_ge).
  pose proof (Hspan mn mx Hmn Hmx) as Hwidth.
  pose proof (find_optimal_transpose_eq self tokens mn mx
                Hmn Hmn_le Hmx Hmx_ge) as Hopt.
  fold optimal in Hopt. rewrite Hmin, Hmax, Hmid in Hopt. cbv zeta in Hopt.
  pose proof (Z.div_mod (mn + mx) 2 ltac:(lia)) as Hdm.
  pose proof (Z.mod_pos_bound (mn + mx) 2 ltac:(lia)) as Hmod.
  pose proof (Hmn_le _ Hmx) as Hle.
  assert (Hval : optimal = 65 - (mn + mx) / 2).
  { destruct (Z.ltb_spec (mn + (65 - (mn + mx) / 2)) 21); [lia|].
    destruct (Z.gtb_spec (mx + (65 - (mn + mx) / 2)) 109); [lia | done]. }
  rewrite (find_optimal_transpose_eq self result (mn + optimal) (mx + optimal)).
  - rewrite Hmin, Hmax, Hmid. cbv zeta.
    replace (mn + optimal + (mx + optimal)) with (mn + mx + optimal * 2)
      by lia.
    rewrite Z.div_add by lia.
    replace (65 - ((mn + mx) / 2 + optimal)) with 0 by lia.
    destruct (Z.ltb_spec (mn + optimal + 0) 21); [lia|].
    destruct (Z.gtb_spec (mx + optimal + 0) 109); [lia | done].
  - apply Hshift. eauto.
  - intros w Hw. apply Hshift in Hw as (v & Hv & ->).
    specialize (Hmn_le v Hv). lia.
  - apply Hshift. eauto.
  - intros w Hw. apply Hshift in Hw as (v & Hv & ->).
    specialize (Hmx_ge v Hv). lia.
Qed.

Lemma centring_idempotent_witness :
  __init__ mid_vocab (-1, 2) = Some mid_self ∧
  NoDup mid_vocab.*2 ∧
  find_optimal_transpose mid_self [3; 1] = -1 ∧
  transpose_tokens mid_self [3; 1] (-1) = Some [3; 0] ∧
  find_optimal_transpose mid_self [3; 0] = 0.
Proof.
  assert (Hids : NoDup mid_vocab.*2)
    by (apply (bool_decide_unpack _); vm_compute; exact I).
  split; [vm_compute; reflexivity|]. split; [exact Hids|].
  split; [vm_compute; reflexivity|]. split; [vm_compute; reflexivity|].
  apply (centring_idempotent mid_vocab (-1, 2) mid_self [3; 1] [3; 0]).
  - vm_compute; reflexivity.
  - exact Hids.
  - intros v w Hv Hw. pitches_of_seq Hv; pitches_of_seq Hw; lia.
  - vm_compute; reflexivity.
Defined.

(** ** More on the batch augmenter *)

(** X13.  For a sequence without pitch tokens (drums only, say) every configured
    offset succeeds: the result has one entry per offset, in order, each
    holding the offset itself and the unchanged sequence. *)
Theorem augment_sequence_no_pitch self tokens :
  (∀ value, ¬ has_pitch self tokens value) →
  augment_sequence self tokens =
  (λ d, (d, tokens)) <$> transpose_values self.
Proof.
  intros Hno. rewrite augment_sequence_omap.
  rewrite find_optimal_transpose_no_pitch by done.
  assert (Hd : ∀ d, attempt self tokens 0 d = Some (d, tokens)).
  { intros d. unfold attempt.
    by rewrite transpose_tokens_unchanged, Z.add_0_l by done. }
  induction (transpose_values self) as [|d values IH]; [done|].
  cbn [omap list_omap fmap list_fmap]. rewrite Hd. f_equal. exact IH.
Qed.

Lemma augment_sequence_no_pitch_witness :
  (∀ value, ¬ has_pitch mid_self [3; 3; 8] value) ∧
  augment_sequence mid_self [3; 3; 8] =
    [(-1, [3; 3; 8]); (0, [3; 3; 8]); (1, [3; 3; 8]); (2, [3; 3; 8])].
Proof.
  assert (Hno : ∀ value, ¬ has_pitch mid_self [3; 3; 8] value).
  { intros v Hv. pitches_of_seq Hv. }
  split; [exact Hno|].
  apply (augment_sequence_no_pitch mid_self [3; 3; 8] Hno).
Defined.

(** X14.  The unshifted sequence is among the variants exactly when the
    configured range contains the opposite of the centring offset, and an
    entry with actual offset zero always holds the input sequence. *)
Theorem augment_sequence_identity_entry vocab_json low high self tokens :
  __init__ vocab_json (low, high) = Some self →
  ((0, tokens) ∈ augment_sequence self tokens ↔
   low ≤ - find_optimal_transpose self tokens ≤ high) ∧
  (∀ transposed,
     (0, transposed) ∈ augment_sequence self tokens → transposed = tokens).
Proof.
  intros Hinit.
  destruct (init_fields _ _ _ Hinit) as (_ & _ & Hvals & _).
  simpl in Hvals. unfold Py.range in Hvals. split.
  - rewrite elem_of_augment_sequence, Hvals, elem_of_seqZ,
      transpose_tokens_zero.
    split; [intros [? _]; lia | intros ?; split; [lia | done]].
  - intros transposed Hin.
    apply elem_of_augment_sequence in Hin as [_ Hrun].
    rewrite transpose_tokens_zero in Hrun. congruence.
Qed.

Lemma augment_sequence_identity_entry_witness :
  __init__ mid_vocab (-1, 2) = Some mid_self ∧
  find_optimal_transpose mid_self [3; 1] = -1 ∧
  (0, [3; 1]) ∈ augment_sequence mid_self [3; 1].
Proof.
  split; [vm_compute; reflexivity|]. split; [vm_compute; reflexivity|].
  destruct (augment_sequence_identity_entry mid_vocab (-1) 2 mid_self [3; 1])
    as [Hiff _]; [vm_compute; reflexivity|].
  apply Hiff. vm_compute. split; discriminate.
Defined.

(** ** [process_jsonl_file]: the loops as folds *)

Lemma open_output_files_lookup values (files : gmap Z (list Jsonl.OutData)) d :
  Jsonl.open_output_files values files !! d =
  if decide (d ∈ values) then Some [] else files !! d.
Proof.
  revert files. induction values as [|v values IH]; intros files;
    cbn [Jsonl.open_output_files].
  - by rewrite decide_False by apply not_elem_of_nil.
  - rewrite IH. destruct (decide (d ∈ values)) as [Hin|Hnot].
    + by rewrite decide_True by by apply list_elem_of_further.
    + destruct (decide (d = v)) as [->|Hne].
      * rewrite decide_True by apply list_elem_of_here.
        apply lookup_insert_eq.
      * rewrite decide_False by (rewrite elem_of_cons; tauto).
        by apply lookup_insert_ne.
Qed.

(** Writing the variants of one record appends to the file of each
    configured offset the record made for that offset, if there is one. *)
Lemma write_results_spec self data tokens values :
  NoDup values →
  ∀ (files : gmap Z (list Jsonl.OutData)) augmented,
  (∀ d, d ∈ values → is_Some (files !! d)) →
  let optimal := find_optimal_transpose self tokens in
  let after :=
    Jsonl.write_results self data tokens
      (omap (attempt self tokens optimal) values) files augmented in
  (∀ d, after.1 !! d =
        (λ written, written ++
           if decide (d ∈ values) then Jsonl.written_for self d (data, tokens)
           else []) <$> files !! d) ∧
  after.2 =
    augmented + Z.of_nat (length (omap (attempt self tokens optimal) values)).
Proof.
  intros Hnodup. induction values as [|v values IH]; intros files augmented Hkeys.
  - cbn [omap list_omap Jsonl.write_results fst snd length]. cbv zeta.
    split; [|lia]. intros d.
    rewrite decide_False by apply not_elem_of_nil.
    destruct (files !! d); simpl; [|done]. by rewrite app_nil_r.
  - apply NoDup_cons in Hnodup as [Hv Hnodup].
    specialize (IH Hnodup). intros optimal after. subst after.
    cbn [omap list_omap].
    destruct (transpose_tokens self tokens (optimal + v)) as [out|] eqn:Hrun.
    + assert (Hatt : attempt self tokens optimal v = Some (optimal + v, out))
        by (unfold attempt; by rewrite Hrun).
      rewrite Hatt. cbn [Jsonl.write_results]. fold optimal.
      replace (optimal + v - optimal) with v by lia.
      destruct (Hkeys v) as [written Hwritten]; [apply list_elem_of_here|].
      rewrite Hwritten.
      match goal with
      | |- context [Jsonl.write_results _ _ _ _ (<[v := ?c]> files) ?a] =>
          destruct (IH (<[v := c]> files) a) as [IHf IHa]
      end.
      { intros d Hd. rewrite lookup_insert_is_Some.
        destruct (decide (v = d)); [by left | right].
        split; [done|]. apply Hkeys. by apply list_elem_of_further. }
      fold optimal in IHf, IHa. split.
      * intros d. rewrite IHf. destruct (decide (d = v)) as [->|Hne].
        -- rewrite lookup_insert_eq, Hwritten.
           rewrite decide_False by done.
           rewrite decide_True by apply list_elem_of_here.
           unfold Jsonl.written_for. cbn [fst snd]. fold optimal.
           rewrite Hrun. simpl. by rewrite app_nil_r.
        -- rewrite lookup_insert_ne by done.
           destruct (decide (d ∈ values)) as [Hin|Hnot].
           ++ by rewrite decide_True by by apply list_elem_of_further.
           ++ by rewrite decide_False by (rewrite elem_of_cons; tauto).
      * rewrite IHa. cbn [length]. lia.
    + assert (Hatt : attempt self tokens optimal v = None)
        by (unfold attempt; by rewrite Hrun).
      rewrite Hatt.
      destruct (IH files augmented) as [IHf IHa].
      { intros d Hd. apply Hkeys. by apply list_elem_of_further. }
      fold optimal in IHf, IHa. split; [|exact IHa].
      intros d. rewrite IHf. destruct (decide (d = v)) as [->|Hne].
      * rewrite decide_False by done.
        rewrite decide_True by apply list_elem_of_here.
        unfold Jsonl.written_for. cbn [fst snd]. fold optimal.
        by rewrite Hrun.
      * destruct (decide (d ∈ values)) as [Hin|Hnot].
        -- by rewrite decide_True by by apply list_elem_of_further.
        -- by rewrite decide_False by (rewrite elem_of_cons; tauto).
Qed.

Lemma process_line_spec self line run :
  Jsonl.process_line self line run =
  match Jsonl.usable line with
  | Some record => Jsonl.process_record self run record
  | None => run
  end.
Proof.
  destruct line as [| |[tk ik ak ok]]; try reflexivity.
  unfold Jsonl.process_line, Jsonl.usable, Jsonl.process_record.
  cbn [Jsonl.tokens_key Jsonl.ids_key fst snd].
  destruct tk as [[tokens|]|]; [|reflexivity|].
  - by destruct (Jsonl.write_results _ _ _ _ _ _).
  - destruct ik as [[tokens|]|]; [|reflexivity..].
    by destruct (Jsonl.write_results _ _ _ _ _ _).
Qed.

Lemma allowed_reached {A} max_samples processed (l : list A) :
  Jsonl.reached max_samples processed = true →
  Jsonl.allowed max_samples processed l = [].
Proof.
  unfold Jsonl.reached, Jsonl.allowed.
  destruct max_samples as [n|]; [|discriminate].
  destruct (Z.eqb_spec n 0); [discriminate|]. simpl.
  destruct (Z.geb_spec processed n); [|discriminate]. intros _.
  replace (Z.to_nat (n - processed)) with 0%nat by lia. done.
Qed.

Lemma allowed_cons {A} max_samples processed (x : A) l :
  Jsonl.reached max_samples processed = false →
  Jsonl.allowed max_samples processed (x :: l) =
  x :: Jsonl.allowed max_samples (processed + 1) l.
Proof.
  unfold Jsonl.reached, Jsonl.allowed.
  destruct max_samples as [n|]; [|done].
  destruct (Z.eqb_spec n 0); [done|]. simpl.
  destruct (Z.geb_spec processed n); [discriminate|]. intros _.
  replace (Z.to_nat (n - processed))
    with (S (Z.to_nat (n - (processed + 1)))) by lia.
  done.
Qed.

(** The loop over the lines processes, in order, the usable records that
    the limit lets through, and nothing else changes its state. *)
Lemma process_lines_fold self max_samples lines run :
  Jsonl.process_lines self max_samples lines run =
  foldl (Jsonl.process_record self) run
    (Jsonl.allowed max_samples (Jsonl.total_processed run)
       (omap Jsonl.usable lines)).
Proof.
  revert run. induction lines as [|line lines IH]; intros run.
  - by destruct max_samples as [n|]; simpl;
      [destruct (n =? 0); rewrite ?take_nil|].
  - cbn [Jsonl.process_lines omap list_omap].
    destruct (Jsonl.reached max_samples (Jsonl.total_processed run)) eqn:Hr.
    { by rewrite allowed_reached. }
    rewrite IH, process_line_spec.
    destruct (Jsonl.usable line) as [record|]; [|done].
    by rewrite allowed_cons.
Qed.

Lemma foldl_process_record self records :
  NoDup (transpose_values self) →
  ∀ run,
  (∀ d, d ∈ transpose_values self →
        is_Some (Jsonl.output_files run !! d)) →
  let run' := foldl (Jsonl.process_record self) run records in
  Jsonl.total_processed run' =
    Jsonl.total_processed run + Z.of_nat (length records) ∧
  Jsonl.total_augmented run' =
    Jsonl.total_augmented run +
    Z.of_nat (sum_list_with
                (λ record : Jsonl.Data * list Z,
                   length (augment_sequence self record.2)) records) ∧
  ∀ d, Jsonl.output_files run' !! d =
       (λ written, written ++
          if decide (d ∈ transpose_values self)
          then records ≫= Jsonl.written_for self d else []) <$>
       Jsonl.output_files run !! d.
Proof.
  intros Hnodup. induction records as [|[data tokens] records IH]; intros run Hkeys.
  - simpl. split; [lia|]. split; [lia|]. intros d.
    destruct (Jsonl.output_files run !! d); simpl; [|done].
    by destruct (decide _); rewrite app_nil_r.
  - cbn [foldl].
    destruct (write_results_spec self data tokens (transpose_values self)
                Hnodup (Jsonl.output_files run) (Jsonl.total_augmented run)
                Hkeys) as [Hfiles Haug].
    rewrite <- augment_sequence_omap in Hfiles, Haug.
    destruct (IH (Jsonl.process_record self run (data, tokens)))
      as (IHp & IHa & IHf).
    { intros d Hd. unfold Jsonl.process_record. cbn [Jsonl.output_files fst snd].
      rewrite Hfiles. destruct (Hkeys d Hd) as [w ->]. by eexists. }
    split; [|split].
    + rewrite IHp. unfold Jsonl.process_record.
      cbn [Jsonl.total_processed length]. lia.
    + rewrite IHa. unfold Jsonl.process_record.
      cbn [Jsonl.total_augmented fst snd sum_list_with]. rewrite Haug. lia.
    + intros d. rewrite IHf. unfold Jsonl.process_record.
      cbn [Jsonl.output_files fst snd]. rewrite Hfiles.
      destruct (Jsonl.output_files run !! d) as [w|]; simpl; [|done].
      f_equal. rewrite <- app_assoc. f_equal.
      destruct (decide (d ∈ transpose_values self)); [|done].
      reflexivity.
Qed.

Lemma init_values_NoDup vocab_json range self :
  __init__ vocab_json range = Some self → NoDup (transpose_values self).
Proof.
  intros Hinit. destruct (init_fields _ _ _ Hinit) as (_ & _ & -> & _).
  apply NoDup_seqZ.
Qed.

(** The state [process_jsonl_file] ends in, read off the usable records
    the limit lets through. *)
Lemma process_jsonl_file_run vocab_json range self lines max_samples :
  __init__ vocab_json range = Some self →
  let records := Jsonl.limited max_samples (omap Jsonl.usable lines) in
  let run := (Jsonl.process_jsonl_file self lines max_samples).1 in
  Jsonl.total_processed run = Z.of_nat (length records) ∧
  Jsonl.total_augmented run =
    Z.of_nat (sum_list_with
                (λ record : Jsonl.Data * list Z,
                   length (augment_sequence self record.2)) records) ∧
  ∀ d, Jsonl.output_files run !! d =
       if decide (d ∈ transpose_values self)
       then Some (records ≫= Jsonl.written_for self d) else None.
Proof.
  intros Hinit records run. subst run. unfold Jsonl.process_jsonl_file.
  cbn [fst]. rewrite process_lines_fold. cbn [Jsonl.total_processed].
  assert (Jsonl.allowed max_samples 0 (omap Jsonl.usable lines) = records)
    as ->.
  { unfold records, Jsonl.allowed, Jsonl.limited.
    destruct max_samples as [n|]; [|done]. by rewrite Z.sub_0_r. }
  destruct (foldl_process_record self records
              (init_values_NoDup _ _ _ Hinit)
              {| Jsonl.output_files :=
                   Jsonl.open_output_files (transpose_values self) ∅;
                 Jsonl.total_processed := 0;
                 Jsonl.total_augmented := 0 |}) as (Hp & Ha & Hf).
  { intros d Hd. cbn [Jsonl.output_files].
    rewrite open_output_files_lookup, decide_True by done. by eexists. }
  cbn [Jsonl.total_processed Jsonl.total_augmented Jsonl.output_files]
    in Hp, Ha, Hf.
  split; [rewrite Hp; lia|]. split; [rewrite Ha; lia|].
  intros d. rewrite Hf, open_output_files_lookup.
  destruct (decide (d ∈ transpose_values self)); [done|].
  by rewrite lookup_empty.
Qed.

(** ** [process_jsonl_file]: what it writes and how it ends *)








Lemma sum_list_with_add {A} (f g : A → nat) l :
  sum_list_with (λ x, (f x + g x)%nat) l =
  (sum_list_with f l + sum_list_with g l)%nat.
Proof. induction l as [|x l IH]; simpl; lia. Qed.

Lemma sum_list_with_ext_in {A} (f g : A → nat) l :
  (∀ x, x ∈ l → f x = g x) → sum_list_with f l = sum_list_with g l.
Proof.
  induction l as [|x l IH]; intros Hfg; simpl; [done|].
  rewrite (Hfg x) by apply list_elem_of_here.
  rewrite IH; [done|]. intros y Hy. apply Hfg. by apply list_elem_of_further.
Qed.

(** One record gives as many output records, over all offsets, as
    [augment_sequence] returns variants. *)
Lemma written_for_count self record values :
  sum_list_with (λ d, length (Jsonl.written_for self d record)) values =
  length (omap (attempt self record.2 (find_optimal_transpose self record.2))
            values).
Proof.
  induction values as [|d values IH]; [done|].
  cbn [sum_list_with omap list_omap]. rewrite IH.
  unfold Jsonl.written_for, attempt at 2.
  by destruct (transpose_tokens self record.2 _).
Qed.

Lemma written_count self records values :
  sum_list_with (λ d, length (records ≫= Jsonl.written_for self d)) values =
  sum_list_with
    (λ record : Jsonl.Data * list Z,
       length (omap (attempt self record.2
                       (find_optimal_transpose self record.2)) values))
    records.
Proof.
  induction records as [|record records IH].
  - simpl. induction values as [|d values IHv]; simpl; [done | exact IHv].
  - cbn [sum_list_with]. rewrite <- IH, <- written_for_count.
    rewrite <- sum_list_with_add. apply sum_list_with_ext_in.
    intros d _. by rewrite bind_cons, length_app.
Qed.

(** X19.  The count of augmented records that the summary reports is the number
    of records written, all output files together. *)
Theorem total_augmented_is_written vocab_json range self lines max_samples :
  __init__ vocab_json range = Some self →
  let run := (Jsonl.process_jsonl_file self lines max_samples).1 in
  Jsonl.total_augmented run =
  Z.of_nat
    (sum_list_with
       (λ d, length (default [] (Jsonl.output_files run !! d)))
       (transpose_values self)).
Proof.
  intros Hinit run.
  destruct (process_jsonl_file_run _ _ _ lines max_samples Hinit)
    as (_ & Ha & Hf).
  fold run in Ha, Hf. rewrite Ha. f_equal.
  rewrite (sum_list_with_ext_in _
             (λ d, length (Jsonl.limited max_samples (omap Jsonl.usable lines)
                             ≫= Jsonl.written_for self d))).
  - rewrite written_count. apply sum_list_with_ext_in.
    intros record _. by rewrite augment_sequence_omap.
  - intros d Hd. by rewrite Hf, decide_True by done.
Qed.

Lemma total_augmented_is_written_witness :
  __init__ mid_vocab (-1, 2) = Some mid_self ∧
  Jsonl.total_augmented
    (Jsonl.process_jsonl_file mid_self sample_lines None).1 = 6.
Proof.
  split; [vm_compute; reflexivity|].
  rewrite (total_augmented_is_written mid_vocab (-1, 2) mid_self
             sample_lines None) by (vm_compute; reflexivity).
  vm_compute. reflexivity.
Defined.




